(** * csv2httproute: a shallow embedding of [main.go]

    The program reads endpoint tables (CSV), groups the endpoints by path
    prefix and writes one Gateway API [HTTPRoute] per input file.  This
    development embeds [parseRecord] and [processCSV] and proves the
    properties their specification states about them.

    Go strings are byte strings and are modelled by [string]; Go slices by
    [list] (the program never builds an empty non-nil slice, so [[]] stands
    for [nil]); Go maps by stdpp's [gmap]; [int] by [Z]. *)

From Stdlib Require Import ZArith Ascii String.
From stdpp Require Import base decidable option list strings gmap.

Local Open Scope Z_scope.
Local Open Scope nat_scope.

(** ** The Go library functions the program calls *)

(** Functions of packages [strings] and [path/filepath] whose behaviour rests
    on Unicode tables or on the host's path rules.  The program only composes
    them, so they are kept abstract; [ascii_text] below is an executable
    instance for ASCII inputs. *)
Class GoText := {
  TrimSpace : string → string;
  ToLower : string → string;
  ToUpper : string → string;
  Join : string → string → string
}.

Module strings.

(** [strings.HasPrefix(s, prefix)] *)
Definition HasPrefix (s prefix : string) : bool := String.prefix prefix s.

(** [s[:n]] and [s[n:]] for [n <= len(s)] *)
Fixpoint take (n : nat) (s : string) : string :=
  match n, s with
  | S n', String c s' => String c (take n' s')
  | _, _ => EmptyString
  end.

Fixpoint drop (n : nat) (s : string) : string :=
  match n, s with
  | S n', String _ s' => drop n' s'
  | _, _ => s
  end.

(** [strings.HasSuffix(s, suffix)]:
    [len(s) >= len(suffix) && s[len(s)-len(suffix):] == suffix] *)
Definition HasSuffix (s suffix : string) : bool :=
  (String.length suffix <=? String.length s) &&
  String.eqb (drop (String.length s - String.length suffix) s) suffix.

(** [strings.TrimSuffix(s, suffix)] *)
Definition TrimSuffix (s suffix : string) : string :=
  if HasSuffix s suffix
  then take (String.length s - String.length suffix) s
  else s.

(** The scan of [strings.ReplaceAll(s, old, new)] for a non-empty [old]:
    occurrences are found left to right and do not overlap.  [skip] counts
    the bytes of the current occurrence that are still to be passed. *)
Fixpoint replaceFrom (old new : string) (skip : nat) (s : string) : string :=
  match s with
  | EmptyString => EmptyString
  | String c s' =>
      match skip with
      | S k => replaceFrom old new k s'
      | O =>
          if String.prefix old s
          then new +:+ replaceFrom old new (String.length old - 1) s'
          else String c (replaceFrom old new O s')
      end
  end.

(** [strings.ReplaceAll(s, old, new)].  Both calls of the program pass a
    non-empty [old]; Go's rune-wise insertion for an empty [old] is not
    part of the model and leaves [s] as it is. *)
Definition ReplaceAll (s old new : string) : string :=
  match old with
  | EmptyString => s
  | _ => replaceFrom old new O s
  end.

End strings.

Module filepath.

Definition Separator : ascii := "/"%char.

(** [for len(path) > 0 && os.IsPathSeparator(path[len(path)-1])]:
    the length that is left of the first [n] bytes of [path]. *)
Fixpoint stripTrailing (path : string) (n : nat) : nat :=
  match n with
  | O => O
  | S j =>
      if decide (String.get j path = Some Separator)
      then stripTrailing path j
      else n
  end.

(** [for i >= 0 && !os.IsPathSeparator(path[i]) { i-- }], started below
    position [n]: the position of the last separator, if there is one. *)
Fixpoint lastSeparator (path : string) (n : nat) : option nat :=
  match n with
  | O => None
  | S j =>
      if decide (String.get j path = Some Separator)
      then Some j
      else lastSeparator path j
  end.

(** [filepath.Base(path)] on a Unix host (no volume names). *)
Definition Base (path : string) : string :=
  if decide (path = EmptyString) then "."
  else
    let path := strings.take (stripTrailing path (String.length path)) path in
    let path :=
      match lastSeparator path (String.length path) with
      | Some i => strings.drop (i + 1) path
      | None => path
      end in
    if decide (path = EmptyString) then String Separator EmptyString
    else path.

End filepath.

(** An instance of [GoText] for ASCII text: white space is tab, line feed,
    vertical tab, form feed, carriage return and space; only the letters
    [a-z] and [A-Z] change case; [Join] joins two clean, non-empty elements. *)
Module AsciiText.

Definition isSpace (c : ascii) : bool := Ascii.is_space c.

Fixpoint trimLeft (s : string) : string :=
  match s with
  | String c s' => if isSpace c then trimLeft s' else s
  | EmptyString => EmptyString
  end.

Fixpoint trimRight (s : string) : string :=
  match s with
  | EmptyString => EmptyString
  | String c s' =>
      match trimRight s' with
      | EmptyString => if isSpace c then EmptyString else String c EmptyString
      | r => String c r
      end
  end.

Definition trimSpace (s : string) : string := trimRight (trimLeft s).

Definition lowerByte (c : ascii) : ascii :=
  let n := nat_of_ascii c in
  if (65 <=? n) && (n <=? 90) then ascii_of_nat (n + 32) else c.

Definition upperByte (c : ascii) : ascii :=
  let n := nat_of_ascii c in
  if (97 <=? n) && (n <=? 122) then ascii_of_nat (n - 32) else c.

Fixpoint mapBytes (f : ascii → ascii) (s : string) : string :=
  match s with
  | EmptyString => EmptyString
  | String c s' => String (f c) (mapBytes f s')
  end.

Definition join (dir name : string) : string := dir +:+ "/" +:+ name.

End AsciiText.

Definition ascii_text : GoText := {|
  TrimSpace := AsciiText.trimSpace;
  ToLower := AsciiText.mapBytes AsciiText.lowerByte;
  ToUpper := AsciiText.mapBytes AsciiText.upperByte;
  Join := AsciiText.join
|}.

(** ** The data model: the HTTPRoute structs of [main.go] *)

Record ParentRef := {
  pr_Group : string;
  pr_Kind : string;
  pr_Name : string;
  pr_Namespace : string
}.

Record HTTPPathMatch := {
  pm_Type : string;
  pm_Value : string
}.

Record HTTPRouteMatch := {
  Path : option HTTPPathMatch;
  Method : string
}.

Record PathRewrite := {
  rw_Type : string;
  ReplacePrefixMatch : string
}.

Record URLRewriteFilter := {
  rw_Path : option PathRewrite
}.

Record HTTPRouteFilter := {
  f_Type : string;
  URLRewrite : option URLRewriteFilter
}.

Record BackendRef := {
  br_Group : string;
  br_Kind : string;
  br_Name : string;
  br_Namespace : string;
  Port : Z;
  Weight : Z
}.

Record HTTPRouteRule := {
  Matches : list HTTPRouteMatch;
  Filters : list HTTPRouteFilter;
  BackendRefs : list BackendRef
}.

Record HTTPRouteSpec := {
  ParentRefs : list ParentRef;
  Hostnames : list string;
  Rules : list HTTPRouteRule
}.

Record Metadata := {
  md_Name : string;
  md_Namespace : string;
  Labels : gmap string string
}.

Record HTTPRoute := {
  APIVersion : string;
  Kind : string;
  Metadata_ : Metadata;
  Spec : HTTPRouteSpec
}.

Record Endpoint := {
  e_Method : string;
  URL : string;
  Prefix : string;
  Comment : string
}.

(** The package-level flag variables, set once by [main]. *)
Record Flags := {
  inputDir : string;
  outputDir : string;
  serviceName : string;
  servicePort : Z;
  serviceNamespace : string;
  gatewayName : string;
  gatewayNamespace : string;
  namespace : string;
  hostname : string
}.

(** The keys that the YAML encoder writes for a [HTTPRouteSpec]: the three
    fields are tagged [omitempty], and a slice of length 0 counts as empty. *)
Definition HTTPRouteSpec_keys (s : HTTPRouteSpec) : list string :=
  (match ParentRefs s with [] => [] | _ => ["parentRefs"] end) ++
  (match Hostnames s with [] => [] | _ => ["hostnames"] end) ++
  (match Rules s with [] => [] | _ => ["rules"] end).

(** ** The world [processCSV] runs in *)

Inductive error :=
  | EOF                       (* io.EOF *)
  | Failure (msg : string).   (* any other error value *)

(** What a CSV reader delivers for one file: the records of the successive
    [Read] calls that succeed, then the error of the call that does not:
    [io.EOF] ([None], or [Some EOF]) or a parse error. *)
Record CSVFile := {
  records : list (list string);
  final : option error
}.

(** The outcomes of the calls that reach outside the program. *)
Record Env := {
  os_Open : string → error + CSVFile;
  os_Create : string → option error;
  Encode : string → HTTPRoute → option error
}.

(** What the program has produced so far: the files it created, each with
    the document encoded into it ([None]: created, nothing complete in it),
    and the lines printed. *)
Record Output := {
  files : gmap string (option HTTPRoute);
  stdout : list string
}.

(** ** The program *)

Definition newline : string := String (ascii_of_nat 10) EmptyString.

Section Program.
Context {text : GoText}.

(** *** Record parser ([parseRecord], lines 332-347) *)

(** One of the four guarded assignments of [parseRecord]:
    [if idx, ok := headerMap[name]; ok && idx < len(record)]. *)
Definition cell (record : list string) (headerMap : gmap string nat)
    (name : string) : string :=
  match headerMap !! name with
  | Some idx =>
      if decide (idx < length record)
      then TrimSpace (nth idx record EmptyString)
      else EmptyString
  | None => EmptyString
  end.

(** [e] starts as the zero [Endpoint]; a field whose guard fails keeps the
    empty string. *)
Definition parseRecord (record : list string) (headerMap : gmap string nat)
    : Endpoint :=
  {| e_Method := cell record headerMap "method";
     URL := cell record headerMap "url";
     Prefix := cell record headerMap "prefix";
     Comment := cell record headerMap "comment" |}.

(** *** Endpoint collector (lines 173-202) *)

(** [for i, h := range header { headerMap[...] = i }], from index [i] on. *)
Fixpoint headerLoop (i : nat) (header : list string)
    (headerMap : gmap string nat) : gmap string nat :=
  match header with
  | [] => headerMap
  | h :: rest =>
      headerLoop (S i) rest (<[ToLower (TrimSpace h) := i]> headerMap)
  end.

Definition makeHeaderMap (header : list string) : gmap string nat :=
  headerLoop 0 header ∅.

(** The test of line 193. *)
Definition skipped (record : list string) : bool :=
  (length record =? 0) ||
  ((0 <? length record) &&
   strings.HasPrefix (TrimSpace (nth 0 record EmptyString)) "#").

(** The read loop of lines 184-202, with the endpoints collected so far. *)
Fixpoint readLoop (rows : list (list string)) (final : option error)
    (headerMap : gmap string nat) (endpoints : list Endpoint)
    : error + list Endpoint :=
  match rows with
  | [] =>
      match final with
      | None | Some EOF => inr endpoints
      | Some err => inl err
      end
  | record :: rest =>
      if skipped record then readLoop rest final headerMap endpoints
      else
        let endpoint := parseRecord record headerMap in
        if decide (URL endpoint = EmptyString)
        then readLoop rest final headerMap endpoints
        else readLoop rest final headerMap (endpoints ++ [endpoint])
  end.

(** Header read followed by the read loop. *)
Definition collect (f : CSVFile) : error + list Endpoint :=
  match records f with
  | [] =>
      match final f with
      | None => inl EOF
      | Some err => inl err
      end
  | header :: rows => readLoop rows (final f) (makeHeaderMap header) []
  end.

(** *** Resource assembler: name and parent reference (lines 208-239) *)

Definition resourceNameOf (path : string) : string :=
  let baseName := strings.TrimSuffix (filepath.Base path) ".csv" in
  let resourceName := strings.ReplaceAll baseName "endpoints-" "" in
  strings.ReplaceAll resourceName "_" "-".

Definition effectiveGatewayNamespace (fl : Flags) : string :=
  if decide (gatewayNamespace fl = EmptyString) then namespace fl
  else gatewayNamespace fl.

Definition parentRef (fl : Flags) : ParentRef :=
  {| pr_Group := "gateway.networking.k8s.io";
     pr_Kind := "Gateway";
     pr_Name := gatewayName fl;
     pr_Namespace := effectiveGatewayNamespace fl |}.

Definition hostnamesOf (fl : Flags) : list string :=
  if decide (hostname fl ≠ EmptyString) then [hostname fl] else [].

(** *** Rule generator (lines 241-313) *)

(** The body of the grouping loop of lines 245-252, on the pair of
    [prefixGroups] and [prefixes]. *)
Definition groupStep (st : gmap string (list Endpoint) * list string)
    (e : Endpoint) : gmap string (list Endpoint) * list string :=
  let '(prefixGroups, prefixes) := st in
  if decide (Prefix e ≠ EmptyString) then
    let prefixes :=
      match prefixGroups !! Prefix e with
      | None => prefixes ++ [Prefix e]
      | Some _ => prefixes
      end in
    (<[Prefix e := default [] (prefixGroups !! Prefix e) ++ [e]]> prefixGroups,
     prefixes)
  else st.

Definition groupByPrefix (endpoints : list Endpoint)
    : gmap string (list Endpoint) * list string :=
  foldl groupStep (∅, []) endpoints.

(** The backend literal of lines 277-286 and 293-302. *)
Definition backendRef (fl : Flags) : BackendRef :=
  {| br_Group := "";
     br_Kind := "Service";
     br_Name := serviceName fl;
     br_Namespace := serviceNamespace fl;
     Port := servicePort fl;
     Weight := 1 |}.

(** [rule1] of lines 257-287. *)
Definition rule1 (fl : Flags) (prefix : string) : HTTPRouteRule :=
  {| Matches :=
       [ {| Path := Some {| pm_Type := "PathPrefix"; pm_Value := prefix |};
            Method := "" |} ];
     Filters :=
       [ {| f_Type := "URLRewrite";
            URLRewrite :=
              Some {| rw_Path :=
                        Some {| rw_Type := "ReplacePrefixMatch";
                                ReplacePrefixMatch := "/" |} |} |} ];
     BackendRefs := [backendRef fl] |}.

(** The match appended for one endpoint at lines 305-311. *)
Definition directMatch (e : Endpoint) : HTTPRouteMatch :=
  {| Path := Some {| pm_Type := "PathPrefix"; pm_Value := URL e |};
     Method := ToUpper (e_Method e) |}.

(** [rule2] of lines 292-312. *)
Definition rule2 (fl : Flags) (endpoints : list Endpoint) : HTTPRouteRule :=
  {| Matches := foldl (λ matches e, matches ++ [directMatch e]) [] endpoints;
     Filters := [];
     BackendRefs := [backendRef fl] |}.

(** The rules in the order in which lines 255-313 append them. *)
Definition generateRules (fl : Flags) (endpoints : list Endpoint)
    : list HTTPRouteRule :=
  let prefixes := (groupByPrefix endpoints).2 in
  let rules := foldl (λ rules prefix, rules ++ [rule1 fl prefix]) [] prefixes in
  rules ++ [rule2 fl endpoints].

(** The [route] value when it is encoded. *)
Definition assemble (fl : Flags) (path : string) (endpoints : list Endpoint)
    : HTTPRoute :=
  {| APIVersion := "gateway.networking.k8s.io/v1";
     Kind := "HTTPRoute";
     Metadata_ := {| md_Name := resourceNameOf path;
                     md_Namespace := namespace fl;
                     Labels := ∅ |};
     Spec := {| ParentRefs := [parentRef fl];
                Hostnames := hostnamesOf fl;
                Rules := generateRules fl endpoints |} |}.

(** *** [processCSV] (lines 163-330) *)

Definition processCSV (fl : Flags) (env : Env) (out : Output) (path : string)
    : Output * option error :=
  match os_Open env path with
  | inl err => (out, Some err)
  | inr f =>
      match collect f with
      | inl err => (out, Some err)
      | inr endpoints =>
          if decide (length endpoints = 0) then (out, None)
          else
            let route := assemble fl path endpoints in
            let outPath := Join (outputDir fl) (resourceNameOf path +:+ ".yaml") in
            match os_Create env outPath with
            | Some err => (out, Some err)
            | None =>
                let created :=
                  {| files := <[outPath := None]> (files out);
                     stdout := stdout out |} in
                match Encode env outPath route with
                | Some err => (created, Some err)
                | None =>
                    ({| files := <[outPath := Some route]> (files out);
                        stdout := stdout out ++
                                  ["Generated " +:+ outPath +:+ newline] |},
                     None)
                end
            end
      end
  end.

(** The rules [processCSV] emits for a collected endpoint sequence: none
    when the sequence is empty (line 204), the generated ones otherwise. *)
Definition emittedRules (fl : Flags) (endpoints : list Endpoint)
    : list HTTPRouteRule :=
  if decide (length endpoints = 0) then [] else generateRules fl endpoints.

End Program.

(** ** The batch driver ([run], lines 128-161) *)

(** An entry of [os.ReadDir]: what [file.Name()] and [file.IsDir()] give. *)
Record DirEntry := {
  Name : string;
  IsDir : bool
}.

(** The outcomes of the calls [run] makes outside the program, beside those
    of [processCSV].  [os_MkdirAll] gives the error or the directories it
    made: the path and those of its parents that were missing.  [os_Stat] is
    asked once for the output directory and once for the input, after the
    directories in its first argument have been made; it gives the error or
    whether the path is a directory. *)
Record Host := {
  host_env : Env;
  os_Stat : list string → string → error + bool;
  os_IsNotExist : error → bool;
  os_MkdirAll : string → error + list string;
  os_ReadDir : string → error + list DirEntry
}.

(** [err.Error()] *)
Definition errorText (err : error) : string :=
  match err with
  | EOF => "EOF"
  | Failure msg => msg
  end.

(** [fmt.Errorf(msg + ": %w", err)] *)
Definition wrapError (msg : string) (err : error) : error :=
  Failure (msg +:+ ": " +:+ errorText err).

Section Batch.
Context {text : GoText}.

(** Lines 129-133: the directories made, or the wrapped error. *)
Definition ensureOutputDir (fl : Flags) (host : Host) : error + list string :=
  match os_Stat host [] (outputDir fl) with
  | inl err =>
      if os_IsNotExist host err then
        match os_MkdirAll host (outputDir fl) with
        | inl err => inl (wrapError "failed to create output directory" err)
        | inr made => inr made
        end
      else inr []
  | inr _ => inr []
  end.

(** The test of line 153. *)
Definition isCSVFile (file : DirEntry) : bool :=
  negb (IsDir file) && strings.HasSuffix (Name file) ".csv".

(** The loop of lines 152-158 over the entries that [os.ReadDir] gave. *)
Fixpoint processFiles (fl : Flags) (env : Env) (entries : list DirEntry)
    (out : Output) : Output :=
  match entries with
  | [] => out
  | file :: rest =>
      if isCSVFile file then
        match processCSV fl env out (Join (inputDir fl) (Name file)) with
        | (out', Some err) =>
            processFiles fl env rest
              {| files := files out';
                 stdout := stdout out' ++
                           ["Error processing " +:+ Name file +:+ ": " +:+
                            errorText err +:+ newline] |}
        | (out', None) => processFiles fl env rest out'
        end
      else processFiles fl env rest out
  end.

(** [run]: what has been produced, the directories made, and the error. *)
Definition run (fl : Flags) (host : Host) (out : Output)
    : Output * list string * option error :=
  match ensureOutputDir fl host with
  | inl err => (out, [], Some err)
  | inr made =>
      match os_Stat host made (inputDir fl) with
      | inl err => (out, made, Some (wrapError "failed to access input" err))
      | inr isDir =>
          if negb isDir then
            if negb (strings.HasSuffix (inputDir fl) ".csv")
            then (out, made, Some (Failure "input file must be a CSV file"))
            else
              let '(out', err) :=
                processCSV fl (host_env host) out (inputDir fl) in
              (out', made, err)
          else
            match os_ReadDir host (inputDir fl) with
            | inl err =>
                (out, made,
                 Some (wrapError "failed to read input directory" err))
            | inr entries =>
                (processFiles fl (host_env host) entries out, made, None)
            end
      end
  end.

End Batch.

(** ** Go maps as one run sees them *)

(** The language leaves the order in which [range] visits a map
    unspecified, and the runtime varies it from run to run.  Here a map is
    the list of its entries in that order, and a run is given by the way it
    rearranges the entries whenever one is stored. *)
Section GoMaps.
Context {V : Type}.

Definition GoMap : Type := list (string * V).

(** What one run does to the order of the entries. *)
Record Layout := {
  arrange : GoMap → GoMap;
  arrange_perm : ∀ m, arrange m ≡ₚ m
}.

(** [v, ok := m[k]] *)
Fixpoint mapLookup (k : string) (m : GoMap) : option V :=
  match m with
  | [] => None
  | (k', v) :: m' => if decide (k' = k) then Some v else mapLookup k m'
  end.

Fixpoint mapReplace (k : string) (v : V) (m : GoMap) : GoMap :=
  match m with
  | [] => []
  | (k', v') :: m' =>
      if decide (k' = k) then (k, v) :: m' else (k', v') :: mapReplace k v m'
  end.

(** [m[k] = v] *)
Definition mapStore (layout : Layout) (k : string) (v : V) (m : GoMap)
    : GoMap :=
  arrange layout
    (match mapLookup k m with
     | Some _ => mapReplace k v m
     | None => m ++ [(k, v)]
     end).

(** The keys in the order in which [for k := range m] visits them. *)
Definition mapKeys (m : GoMap) : list string := m.*1.

End GoMaps.

Global Arguments GoMap : clear implicits.
Global Arguments Layout : clear implicits.

(** *** The rule generator of lines 241-313 in one run *)

Section RuleGeneratorRun.
Context {text : GoText}.

(** The body of the grouping loop of lines 245-252, with [prefixGroups] as
    the run has it. *)
Definition groupStepIn (layout : Layout (list Endpoint))
    (st : GoMap (list Endpoint) * list string) (e : Endpoint)
    : GoMap (list Endpoint) * list string :=
  let '(prefixGroups, prefixes) := st in
  if decide (Prefix e ≠ EmptyString) then
    let prefixes :=
      match mapLookup (Prefix e) prefixGroups with
      | None => prefixes ++ [Prefix e]
      | Some _ => prefixes
      end in
    (mapStore layout (Prefix e)
       (default [] (mapLookup (Prefix e) prefixGroups) ++ [e]) prefixGroups,
     prefixes)
  else st.

Definition groupByPrefixIn (layout : Layout (list Endpoint))
    (endpoints : list Endpoint) : GoMap (list Endpoint) * list string :=
  foldl (groupStepIn layout) ([], []) endpoints.

(** The rules in the order in which lines 255-313 append them. *)
Definition generateRulesIn (layout : Layout (list Endpoint)) (fl : Flags)
    (endpoints : list Endpoint) : list HTTPRouteRule :=
  let prefixes := (groupByPrefixIn layout endpoints).2 in
  let rules := foldl (λ rules prefix, rules ++ [rule1 fl prefix]) [] prefixes in
  rules ++ [rule2 fl endpoints].

End RuleGeneratorRun.

(** ** Specification-side notions *)

Section Notions.
Context {text : GoText}.

(** The name under which a header field is registered. *)
Definition columnKey (h : string) : string := ToLower (TrimSpace h).

(** Position [i] holds the last header field registered under [name]. *)
Definition lastOccurrence (name : string) (header : list string) (i : nat)
    : Prop :=
  (∃ h, header !! i = Some h ∧ columnKey h = name) ∧
  ∀ j h, i < j → header !! j = Some h → columnKey h ≠ name.

(** The trimmed field of a row in the column called [name]; the empty
    string when the header has no such column or the row is too short. *)
Definition trimmedField (record : list string) (headerMap : gmap string nat)
    (name : string) : string :=
  match headerMap !! name ≫= (record !!.) with
  | Some s => TrimSpace s
  | None => EmptyString
  end.

(** The error with which the read loop ends, if it does: [io.EOF] ends the
    loop without error. *)
Definition readError (final : option error) : option error :=
  match final with
  | None | Some EOF => None
  | Some err => Some err
  end.

(** The first field of the row, if any, does not begin with [#] once
    trimmed, and the trimmed url field is not empty. *)
Definition collectable (headerMap : gmap string nat) (record : list string)
    : Prop :=
  match head record with
  | Some first => strings.HasPrefix (TrimSpace first) "#" = false
  | None => True
  end ∧
  trimmedField record headerMap "url" ≠ EmptyString.

Global Instance collectable_dec headerMap record :
  Decision (collectable headerMap record).
Proof. unfold collectable. destruct (head record); apply _. Defined.

(** The non-empty prefix values of an endpoint sequence, in its order. *)
Definition nonEmptyPrefixes (endpoints : list Endpoint) : list string :=
  filter (λ p, p ≠ EmptyString) (Prefix <$> endpoints).

(** The distinct values of a list in the order of their first occurrence:
    a value is kept where it is seen first and dropped from what follows. *)
Fixpoint firstSeen (l : list string) : list string :=
  match l with
  | [] => []
  | x :: l' => x :: filter (λ y, y ≠ x) (firstSeen l')
  end.

(** A rule that rewrites the URL carries a filter; the catch-all rule
    carries none. *)
Definition isRewriteRule (r : HTTPRouteRule) : Prop := Filters r ≠ [].

(** Byte [c] occurs in [s]. *)
Fixpoint occurs (c : ascii) (s : string) : Prop :=
  match s with
  | EmptyString => False
  | String d s' => c = d ∨ occurs c s'
  end.

Global Instance occurs_dec c s : Decision (occurs c s).
Proof. induction s as [|d s IH]; simpl; apply _. Defined.

(** Every underscore turned into a hyphen. *)
Fixpoint hyphenate (s : string) : string :=
  match s with
  | EmptyString => EmptyString
  | String c s' =>
      String (if decide (c = "_"%char) then "-"%char else c) (hyphenate s')
  end.


(** A stem without hyphen and without path separator. *)
Definition plainStem (stem : string) : Prop :=
  ¬ occurs "-"%char stem ∧ ¬ occurs "/"%char stem.

Global Instance plainStem_dec stem : Decision (plainStem stem).
Proof. unfold plainStem. apply _. Defined.

(** The token [endpoints-] starts nowhere in [s]. *)
Fixpoint tokenFree (s : string) : Prop :=
  match s with
  | EmptyString => True
  | String _ s' => String.prefix "endpoints-" s = false ∧ tokenFree s'
  end.

Global Instance tokenFree_dec s : Decision (tokenFree s).
Proof. induction s as [|c s IH]; simpl; apply _. Defined.

(** [processCSV] has put the complete document [r] into file [p]. *)
Definition writes (out out' : Output) (p : string) (r : HTTPRoute) : Prop :=
  files out' !! p = Some (Some r) ∧ files out !! p ≠ Some (Some r).

End Notions.

(** ** Notions for the driver *)

Section DriverNotions.
Context {text : GoText}.

(** The path of the document made from the table at [path] (line 315). *)
Definition outPathOf (fl : Flags) (path : string) : string :=
  Join (outputDir fl) (resourceNameOf path +:+ ".yaml").

(** The line printed for a completed document (line 328). *)
Definition generatedLine (outPath : string) : string :=
  "Generated " +:+ outPath +:+ newline.

(** The line printed for a file of a directory that failed (line 155). *)
Definition errorLine (name : string) (err : error) : string :=
  "Error processing " +:+ name +:+ ": " +:+ errorText err +:+ newline.

(** [processCSV] gets as far as creating its output file: the table is
    read, an endpoint is collected and [os.Create] succeeds. *)
Definition createsFile (fl : Flags) (env : Env) (path : string) : Prop :=
  ∃ f endpoints,
    os_Open env path = inr f ∧ collect f = inr endpoints ∧
    endpoints ≠ [] ∧ os_Create env (outPathOf fl path) = None.

(** No file is lost and the printed lines are only extended. *)
Definition extends (out out' : Output) : Prop :=
  dom (files out) ⊆ dom (files out') ∧ stdout out `prefix_of` stdout out'.

End DriverNotions.

(** ** Sample inputs *)

(** The defaults of the flags (lines 112-120). *)
Definition defaultFlags : Flags :=
  {| inputDir := "facts/endpoints";
     outputDir := "generated";
     serviceName := "my-service";
     servicePort := 80;
     serviceNamespace := "";
     gatewayName := "my-gateway";
     gatewayNamespace := "";
     namespace := "default";
     hostname := "" |}.

Definition productionFlags : Flags :=
  {| inputDir := "data/api-endpoints.csv";
     outputDir := "k8s/routes";
     serviceName := "my-service";
     servicePort := 80;
     serviceNamespace := "";
     gatewayName := "shared-gw";
     gatewayNamespace := "";
     namespace := "production";
     hostname := "api.example.com" |}.

(** The table of the README, with a comment line and a row without url. *)
Definition usersTable : CSVFile :=
  {| records :=
       [ ["Method"; "URL"; "Prefix"];
         ["GET"; "/api/v1/users"; "/user"];
         ["# internal"; "x"; "y"];
         ["post"; "/api/v1/login"; "/user"];
         ["GET"; ""; ""; ""];
         ["GET"; "/health"; ""; ""] ];
     final := None |}.

Definition usersEndpoints : list Endpoint :=
  [ {| e_Method := "GET"; URL := "/api/v1/users"; Prefix := "/user"; Comment := "" |};
    {| e_Method := "post"; URL := "/api/v1/login"; Prefix := "/user"; Comment := "" |};
    {| e_Method := "GET"; URL := "/health"; Prefix := ""; Comment := "" |} ].

(** Endpoints under two prefixes. *)
Definition shopEndpoints : list Endpoint :=
  [ {| e_Method := "GET"; URL := "/api/v1/users"; Prefix := "/user"; Comment := "" |};
    {| e_Method := "PUT"; URL := "/api/v1/orders"; Prefix := "/shop"; Comment := "" |};
    {| e_Method := "GET"; URL := "/api/v1/login"; Prefix := "/user"; Comment := "" |};
    {| e_Method := "GET"; URL := "/api/v1/carts"; Prefix := "/shop"; Comment := "" |} ].

(** A run that leaves the entries of a map where they are, and one that
    turns them round at every store. *)
Definition keepLayout : Layout (list Endpoint) :=
  {| arrange := λ m, m; arrange_perm := λ m, reflexivity m |}.

Definition reverseLayout : Layout (list Endpoint) :=
  {| arrange := reverse; arrange_perm := reverse_Permutation |}.

(** A table with a header and nothing to collect. *)
Definition commentsOnly : CSVFile :=
  {| records := [ ["Method"; "URL"]; ["# nothing yet"]; ["GET"; "  "] ];
     final := None |}.

(** A world in which every file holds [f] and every write succeeds. *)
Definition worldOf (f : CSVFile) : Env :=
  {| os_Open := λ _, inr f;
     os_Create := λ _, None;
     Encode := λ _ _, None |}.

Definition nothingYet : Output := {| files := ∅; stdout := [] |}.

(** A table whose reading breaks off after a good row. *)
Definition brokenTable : CSVFile :=
  {| records := [ ["Method"; "URL"]; ["GET"; "/ok"] ];
     final := Some (Failure "record on line 3: wrong number of fields") |}.

(** A table whose first line is a comment: the comment is the header. *)
Definition commentFirst : CSVFile :=
  {| records := [ ["# endpoints"]; ["Method"; "URL"]; ["GET"; "/ok"] ];
     final := None |}.

(** A directory with a sub-directory, a note, a good and a broken table;
    the output directory does not exist yet. *)
Definition sampleEntries : list DirEntry :=
  [ {| Name := "archive"; IsDir := true |};
    {| Name := "endpoints-broken.csv"; IsDir := false |};
    {| Name := "endpoints-users.csv"; IsDir := false |};
    {| Name := "notes.txt"; IsDir := false |} ].

Definition sampleEnv : Env :=
  {| os_Open := λ path,
       if String.eqb path "facts/endpoints/endpoints-users.csv"
       then inr usersTable
       else if String.eqb path "facts/endpoints/endpoints-broken.csv"
       then inr brokenTable
       else inl (Failure "no such file or directory");
     os_Create := λ _, None;
     Encode := λ _ _, None |}.

Definition sampleHost : Host :=
  {| host_env := sampleEnv;
     os_Stat := λ made path,
       if String.eqb path "facts/endpoints" then inr true
       else if bool_decide (path ∈ made) then inr true
       else inl (Failure "no such file or directory");
     os_IsNotExist := λ _, true;
     os_MkdirAll := λ path,
       if String.eqb path "k8s/routes" then inr ["k8s"; "k8s/routes"]
       else inr [path];
     os_ReadDir := λ _, inr sampleEntries |}.



(** ** Record parser and endpoint collector *)

Section Collector.
Context {text : GoText}.

Lemma cell_trimmedField record headerMap name :
  cell record headerMap name = trimmedField record headerMap name.
Proof.
  unfold cell, trimmedField.
  destruct (headerMap !! name) as [idx|] eqn:Hidx; simpl; [|done].
  case_decide as Hlt.
  - destruct (lookup_lt_is_Some_2 record idx Hlt) as [s Hs].
    rewrite Hs. f_equal. by apply nth_lookup_Some with (d := EmptyString) in Hs.
  - rewrite lookup_ge_None_2; [done | lia].
Qed.

Lemma skipped_head record :
  skipped record = false ↔
  record ≠ [] ∧
  match head record with
  | Some first => strings.HasPrefix (TrimSpace first) "#" = false
  | None => True
  end.
Proof.
  unfold skipped. destruct record as [|first record]; simpl.
  - split; [done | by intros [? _]].
  - split; [by intros ->|by intros [_ ->]].
Qed.

(** One turn of the read loop either appends the parsed row or not. *)
Lemma readLoop_step record rest final headerMap endpoints :
  readLoop (record :: rest) final headerMap endpoints =
  readLoop rest final headerMap
    (if decide (collectable headerMap record)
     then endpoints ++ [parseRecord record headerMap]
     else endpoints).
Proof.
  simpl. unfold collectable.
  destruct (skipped record) eqn:Hskip.
  - rewrite decide_False; [done|]. intros [Hfirst Hurl].
    destruct record as [|first record].
    + apply Hurl. unfold trimmedField. by destruct (headerMap !! "url").
    + assert (skipped (first :: record) = false) as Hno
        by (apply skipped_head; done).
      congruence.
  - apply skipped_head in Hskip as [_ Hfirst].
    change (URL (parseRecord record headerMap)) with (cell record headerMap "url").
    rewrite cell_trimmedField.
    case_decide as Hurl.
    + rewrite decide_False; [done|]. by intros [_ ?].
    + by rewrite decide_True.
Qed.

Lemma readLoop_end rows final headerMap endpoints :
  readLoop rows final headerMap endpoints =
  match readError final with
  | Some err => inl err
  | None =>
      inr (endpoints ++
           ((λ record, parseRecord record headerMap) <$>
              filter (collectable headerMap) rows))
  end.
Proof.
  revert endpoints. induction rows as [|record rows IH]; intros endpoints.
  - simpl. rewrite app_nil_r. by destruct final as [[|msg]|].
  - rewrite readLoop_step, IH, filter_cons.
    destruct (readError final); [done|].
    case_decide; [|done].
    by rewrite fmap_cons, <- app_assoc.
Qed.

Lemma readLoop_filter rows headerMap endpoints :
  readLoop rows None headerMap endpoints =
  inr (endpoints ++
       ((λ record, parseRecord record headerMap) <$>
          filter (collectable headerMap) rows)).
Proof. by rewrite readLoop_end. Qed.

Lemma readLoop_error rows err headerMap endpoints :
  err ≠ EOF → readLoop rows (Some err) headerMap endpoints = inl err.
Proof. intros Herr. rewrite readLoop_end. by destruct err. Qed.

(** A file whose reading succeeds yields the collectable rows, parsed, in
    their order. *)
Lemma collect_ok header rows :
  collect {| records := header :: rows; final := None |} =
  inr ((λ record, parseRecord record (makeHeaderMap header)) <$>
         filter (collectable (makeHeaderMap header)) rows).
Proof. unfold collect. simpl. by rewrite readLoop_filter. Qed.

Lemma collect_inr f endpoints :
  collect f = inr endpoints →
  ∃ header rows,
    records f = header :: rows ∧ readError (final f) = None ∧
    endpoints =
      (λ record, parseRecord record (makeHeaderMap header)) <$>
        filter (collectable (makeHeaderMap header)) rows.
Proof.
  unfold collect. destruct f as [[|header rows] fin]; simpl.
  - by destruct fin.
  - rewrite readLoop_end. destruct (readError fin); [done|].
    simpl. intros [= <-]. eauto.
Qed.

(** *** The header map *)

Lemma headerLoop_absent header i headerMap name :
  (∀ j h, header !! j = Some h → columnKey h ≠ name) →
  headerLoop i header headerMap !! name = headerMap !! name.
Proof.
  revert i headerMap.
  induction header as [|h header IH]; intros i headerMap Hno; [done|].
  simpl. rewrite IH.
  - apply lookup_insert_ne. apply (Hno 0 h). done.
  - intros j h' Hj. apply (Hno (S j) h'). done.
Qed.

Lemma headerLoop_last header i headerMap name j :
  lastOccurrence name header j →
  headerLoop i header headerMap !! name = Some (i + j).
Proof.
  revert i headerMap j.
  induction header as [|h header IH]; intros i headerMap j [(h0 & Hj & Hkey) Hlast].
  - done.
  - simpl. destruct j as [|j].
    + simpl in Hj. injection Hj as ->.
      rewrite headerLoop_absent.
      * unfold columnKey in Hkey. rewrite Hkey, lookup_insert_eq.
        f_equal. lia.
      * intros j h' Hj'. apply (Hlast (S j) h'); [lia | done].
    + rewrite (IH (S i) _ j).
      * f_equal. lia.
      * split; [by exists h0|].
        intros j' h' Hlt Hj'. apply (Hlast (S j') h'); [lia | done].
Qed.

End Collector.

(** ** Rule generator *)

Section Generator.
Context {text : GoText}.

Lemma foldl_append {A B} (f : A → B) (l : list A) (acc : list B) :
  foldl (λ acc x, acc ++ [f x]) acc l = acc ++ (f <$> l).
Proof.
  revert acc. induction l as [|x l IH]; intros acc; simpl.
  - by rewrite app_nil_r.
  - by rewrite IH, <- app_assoc.
Qed.

Lemma filter_all {A} (P : A → Prop) `{∀ x, Decision (P x)} (l : list A) :
  (∀ x, P x) → filter P l = l.
Proof.
  intros HP. induction l as [|x l IH]; [done|].
  by rewrite filter_cons_True, IH.
Qed.

(** *** First-seen order *)

Lemma firstSeen_elem_of l x : x ∈ firstSeen l ↔ x ∈ l.
Proof.
  induction l as [|y l IH]; simpl; [done|].
  rewrite !elem_of_cons, list_elem_of_filter, IH.
  destruct (decide (x = y)); intuition congruence.
Qed.

Lemma firstSeen_NoDup l : NoDup (firstSeen l).
Proof.
  induction l as [|y l IH]; simpl; [constructor|].
  constructor.
  - rewrite list_elem_of_filter. tauto.
  - by apply NoDup_filter.
Qed.

Lemma firstSeen_size l :
  length (firstSeen l) = size (list_to_set l : gset string).
Proof.
  rewrite <- (size_list_to_set (C := gset string) (firstSeen l))
    by apply firstSeen_NoDup.
  f_equal. apply set_eq. intros x.
  by rewrite !elem_of_list_to_set, firstSeen_elem_of.
Qed.

Lemma filter_filter_not_in (ps : list string) p (l : list string) :
  filter (λ x, x ∉ ps ++ [p]) l = filter (λ x, x ∉ ps) (filter (λ y, y ≠ p) l).
Proof.
  rewrite list_filter_filter. apply list_filter_iff. intros x.
  rewrite elem_of_app, list_elem_of_singleton. tauto.
Qed.

Lemma filter_not_in_absorb (ps : list string) p (l : list string) :
  p ∈ ps →
  filter (λ x, x ∉ ps) (filter (λ y, y ≠ p) l) = filter (λ x, x ∉ ps) l.
Proof.
  intros Hp. rewrite list_filter_filter. apply list_filter_iff. intros x.
  intuition congruence.
Qed.

(** *** The grouping loop keeps [prefixes] in first-seen order *)

Lemma groupStep_empty_prefix st e :
  Prefix e = EmptyString → groupStep st e = st.
Proof. intros He. destruct st. unfold groupStep. by rewrite decide_False by tauto. Qed.

Lemma foldl_groupStep endpoints prefixGroups prefixes :
  (∀ p, is_Some (prefixGroups !! p) ↔ p ∈ prefixes) →
  (foldl groupStep (prefixGroups, prefixes) endpoints).2 =
  prefixes ++
    filter (λ p, p ∉ prefixes) (firstSeen (nonEmptyPrefixes endpoints)).
Proof.
  revert prefixGroups prefixes.
  induction endpoints as [|e endpoints IH]; intros prefixGroups prefixes Hdom.
  { simpl. by rewrite app_nil_r. }
  unfold nonEmptyPrefixes in *. rewrite fmap_cons, filter_cons. simpl.
  destruct (decide (Prefix e ≠ EmptyString)) as [Hp|Hp]; [|by apply IH].
  simpl. rewrite filter_cons.
  destruct (prefixGroups !! Prefix e) as [group|] eqn:Hgroup; simpl.
  - assert (Prefix e ∈ prefixes) as Hin by (apply Hdom; eauto).
    rewrite decide_False by tauto.
    rewrite IH, filter_not_in_absorb; [done..|].
    intros p. rewrite lookup_insert. case_decide; subst; [|apply Hdom].
    split; eauto.
  - assert (Prefix e ∉ prefixes) as Hin.
    { intros Hin. apply Hdom in Hin as [? ?]. congruence. }
    rewrite decide_True by done.
    rewrite IH, filter_filter_not_in, <- app_assoc; [done|].
    intros p. rewrite lookup_insert, elem_of_app, list_elem_of_singleton.
    case_decide; subst.
    + split; eauto.
    + rewrite Hdom. intuition congruence.
Qed.

Lemma groupByPrefix_prefixes endpoints :
  (groupByPrefix endpoints).2 = firstSeen (nonEmptyPrefixes endpoints).
Proof.
  unfold groupByPrefix. rewrite foldl_groupStep.
  - simpl. apply filter_all. intros x. rewrite elem_of_nil. tauto.
  - intros p. rewrite lookup_empty, elem_of_nil. split; [by intros [? ?] | done].
Qed.

Lemma generateRules_eq fl endpoints :
  generateRules fl endpoints =
  (rule1 fl <$> firstSeen (nonEmptyPrefixes endpoints)) ++
    [rule2 fl endpoints].
Proof.
  unfold generateRules.
  by rewrite groupByPrefix_prefixes, foldl_append.
Qed.

Lemma emittedRules_eq fl endpoints :
  endpoints ≠ [] →
  emittedRules fl endpoints =
  (rule1 fl <$> firstSeen (nonEmptyPrefixes endpoints)) ++
    [rule2 fl endpoints].
Proof.
  intros Hne. unfold emittedRules.
  rewrite decide_False; [apply generateRules_eq|].
  by destruct endpoints.
Qed.

Lemma rule2_matches fl endpoints :
  Matches (rule2 fl endpoints) = directMatch <$> endpoints.
Proof. unfold rule2. simpl. by rewrite foldl_append. Qed.

End Generator.

(** ** Byte strings and the resource name *)

Section ResourceName.

Lemma app_String c s t : String c s +:+ t = String c (s +:+ t).
Proof. reflexivity. Qed.

Lemma app_Empty t : EmptyString +:+ t = t.
Proof. reflexivity. Qed.

Lemma length_app s t :
  String.length (s +:+ t) = String.length s + String.length t.
Proof. induction s as [|c s IH]; [done|]. rewrite app_String. simpl. by rewrite IH. Qed.



Lemma take_all s : strings.take (String.length s) s = s.
Proof. induction s as [|c s IH]; [done|]. simpl. by rewrite IH. Qed.



Lemma prefix_Empty s : String.prefix EmptyString s = true.
Proof. by destruct s. Qed.

Lemma occurs_app c s t : occurs c (s +:+ t) ↔ occurs c s ∨ occurs c t.
Proof.
  induction s as [|d s IH]; [rewrite app_Empty; simpl; tauto|].
  rewrite app_String. simpl. rewrite IH. tauto.
Qed.


Lemma prefix_occurs c p s :
  String.prefix p s = true → occurs c p → occurs c s.
Proof.
  revert s. induction p as [|a p IH]; intros s; [done|].
  destruct s as [|b s]; simpl; [done|].
  destruct (ascii_dec a b) as [->|]; [|done].
  intros Hp [->|Hc]; [by left|]. right. by apply IH.
Qed.

(** *** [filepath.Base] of a name without separator *)




(** *** [strings.ReplaceAll] on strings that do not hold the token *)


Lemma replace_underscores s :
  strings.ReplaceAll s "_" "-" = hyphenate s.
Proof.
  unfold strings.ReplaceAll.
  induction s as [|c s IH]; [done|].
  cbn [strings.replaceFrom hyphenate String.prefix String.length Nat.sub].
  destruct (ascii_dec "_" c) as [<-|Hc].
  - rewrite prefix_Empty, decide_True by done. by rewrite IH.
  - rewrite decide_False by congruence. by rewrite IH.
Qed.






Lemma plainStem_tokenFree stem : ¬ occurs "-"%char stem → tokenFree stem.
Proof.
  induction stem as [|c stem IH]; [done|]. intros Hno.
  split; [|apply IH; simpl in Hno; tauto].
  destruct (String.prefix "endpoints-" (String c stem)) eqn:Hp; [|done].
  destruct Hno. apply (prefix_occurs _ "endpoints-"); [done|].
  simpl. tauto.
Qed.



End ResourceName.

(** ** What [processCSV] writes *)

Section Driver.
Context {text : GoText}.

Lemma assemble_rules fl path endpoints :
  endpoints ≠ [] →
  Rules (Spec (assemble fl path endpoints)) = emittedRules fl endpoints.
Proof.
  intros Hne. unfold emittedRules. simpl.
  rewrite decide_False; [done | by destruct endpoints].
Qed.

(** A document that a call of [processCSV] completes is the route
    assembled from the non-empty endpoint sequence collected from the
    file, and the call returns no error. *)
Lemma processCSV_writes fl env out path out' err p r :
  processCSV fl env out path = (out', err) →
  writes out out' p r →
  ∃ f endpoints,
    os_Open env path = inr f ∧ collect f = inr endpoints ∧
    endpoints ≠ [] ∧ r = assemble fl path endpoints ∧
    p = Join (outputDir fl) (resourceNameOf path +:+ ".yaml") ∧
    err = None.
Proof.
  unfold processCSV, writes.
  destruct (os_Open env path) as [e|f] eqn:Hopen;
    [intros [= <- <-] [? ?]; done|].
  destruct (collect f) as [e|endpoints] eqn:Hcollect;
    [intros [= <- <-] [? ?]; done|].
  case_decide as Hlen; [intros [= <- <-] [? ?]; done|].
  destruct (os_Create env _) as [e|]; [intros [= <- <-] [? ?]; done|].
  destruct (Encode env _ _) as [e|]; intros [= <- <-]; simpl; intros [Hnew Hold].
  - rewrite lookup_insert in Hnew. case_decide; [done|]. done.
  - rewrite lookup_insert in Hnew. case_decide as Hp; [|done].
    injection Hnew as <-. exists f, endpoints.
    assert (endpoints ≠ []) by (by destruct endpoints).
    by repeat split.
Qed.

End Driver.

(** ** The properties of the specification *)

Section Claims.
Context {text : GoText}.

(** C1: for a non-empty endpoint sequence the emitted rules end with one
    catch-all rule, the only rule without a rewrite filter; its matches
    are, endpoint by endpoint and in the original order, a [PathPrefix]
    match on the endpoint's url with the endpoint's method in upper case,
    so there are as many matches as endpoints. *)
Theorem catch_all_rule_is_last fl (endpoints : list Endpoint) :
  endpoints ≠ [] →
  ∃ rewrites catchAll,
    emittedRules fl endpoints = rewrites ++ [catchAll] ∧
    last (emittedRules fl endpoints) = Some catchAll ∧
    Forall isRewriteRule rewrites ∧
    ¬ isRewriteRule catchAll ∧
    Matches catchAll =
      (λ e, {| Path := Some {| pm_Type := "PathPrefix"; pm_Value := URL e |};
               Method := ToUpper (e_Method e) |}) <$> endpoints ∧
    length (Matches catchAll) = length endpoints.
Proof.
  intros Hne.
  exists (rule1 fl <$> firstSeen (nonEmptyPrefixes endpoints)),
         (rule2 fl endpoints).
  rewrite emittedRules_eq by done.
  split; [done|]. split; [apply last_snoc|].
  split.
  - apply Forall_fmap, Forall_forall. intros p _. by unfold isRewriteRule.
  - split; [by intros Hr; apply Hr|].
    rewrite rule2_matches. split; [done|]. apply length_fmap.
Qed.

(** C2: the rewrite rules are emitted first, one for each distinct
    non-empty prefix in first-seen order, so their number is the number
    of distinct non-empty prefixes; each has the single match
    [PathPrefix] on the prefix with no method, and the single filter that
    replaces the matched prefix with [/]. *)
Theorem rewrite_rules_in_first_seen_order fl (endpoints : list Endpoint) :
  ∃ rewrites rest,
    emittedRules fl endpoints = rewrites ++ rest ∧
    Forall (λ r, ¬ isRewriteRule r) rest ∧
    length rewrites =
      size (list_to_set (nonEmptyPrefixes endpoints) : gset string) ∧
    Forall2
      (λ prefix r,
         Matches r =
           [ {| Path := Some {| pm_Type := "PathPrefix"; pm_Value := prefix |};
                Method := "" |} ] ∧
         Filters r =
           [ {| f_Type := "URLRewrite";
                URLRewrite :=
                  Some {| rw_Path :=
                            Some {| rw_Type := "ReplacePrefixMatch";
                                    ReplacePrefixMatch := "/" |} |} |} ])
      (firstSeen (nonEmptyPrefixes endpoints)) rewrites.
Proof.
  destruct endpoints as [|e endpoints].
  - exists [], []. repeat split; constructor.
  - exists (rule1 fl <$> firstSeen (nonEmptyPrefixes (e :: endpoints))),
           [rule2 fl (e :: endpoints)].
    split; [by apply emittedRules_eq|].
    split; [constructor; [by intros Hr; apply Hr | constructor]|].
    split; [by rewrite length_fmap, firstSeen_size|].
    apply Forall2_fmap_r, Forall_Forall2_diag, Forall_forall.
    by intros p _.
Qed.

(** C4: when the file is read without error and no endpoint is collected
    from it, [processCSV] returns no error and leaves the written files and
    the printed lines as they were; no rule is emitted. *)
Theorem no_endpoints_no_output fl env out path f :
  os_Open env path = inr f →
  collect f = inr [] →
  processCSV fl env out path = (out, None) ∧
  emittedRules fl [] = [] ∧
  ∀ p r, ¬ writes out (processCSV fl env out path).1 p r.
Proof.
  intros Hopen Hcollect.
  assert (processCSV fl env out path = (out, None)) as Hrun.
  { unfold processCSV. by rewrite Hopen, Hcollect. }
  split; [done|]. split; [done|].
  intros p r. rewrite Hrun. by intros [? ?].
Qed.

(** C5: a turn of the read loop appends the parsed row exactly when the
    row is collectable (its first field, trimmed, does not begin with [#]
    and its url field, trimmed, is not empty); so a file read without error
    yields the collectable rows, parsed, in order.  The fields of the
    parsed row are the trimmed fields of the row, and a column whose
    position lies beyond the end of the row gives the empty string. *)
Theorem row_collected_iff_collectable :
  (∀ record rest final headerMap endpoints,
     readLoop (record :: rest) final headerMap endpoints =
     readLoop rest final headerMap
       (if decide (collectable headerMap record)
        then endpoints ++ [parseRecord record headerMap]
        else endpoints)) ∧
  (∀ header rows,
     collect {| records := header :: rows; final := None |} =
     inr ((λ record, parseRecord record (makeHeaderMap header)) <$>
            filter (collectable (makeHeaderMap header)) rows)) ∧
  (∀ record headerMap,
     parseRecord record headerMap =
     {| e_Method := trimmedField record headerMap "method";
        URL := trimmedField record headerMap "url";
        Prefix := trimmedField record headerMap "prefix";
        Comment := trimmedField record headerMap "comment" |}) ∧
  (∀ (record : list string) (headerMap : gmap string nat) idx,
     length record ≤ idx →
     (headerMap !! "method" = Some idx →
      e_Method (parseRecord record headerMap) = "") ∧
     (headerMap !! "url" = Some idx →
      URL (parseRecord record headerMap) = "") ∧
     (headerMap !! "prefix" = Some idx →
      Prefix (parseRecord record headerMap) = "") ∧
     (headerMap !! "comment" = Some idx →
      Comment (parseRecord record headerMap) = "")).
Proof.
  split; [apply readLoop_step|]. split; [apply collect_ok|].
  split.
  - intros record headerMap. unfold parseRecord.
    by rewrite !cell_trimmedField.
  - intros record headerMap idx Hshort.
    unfold parseRecord, cell. simpl.
    repeat split; intros ->; by rewrite decide_False by lia.
Qed.

(** C6: every emitted rule, rewrite rule or catch-all, refers to exactly
    one backend: the configured service name, service namespace and port,
    with weight 1. *)
Theorem every_rule_has_the_backend fl (endpoints : list Endpoint) :
  Forall
    (λ r, ∃ b,
       BackendRefs r = [b] ∧
       br_Name b = serviceName fl ∧
       br_Namespace b = serviceNamespace fl ∧
       Port b = servicePort fl ∧
       Weight b = 1%Z)
    (emittedRules fl endpoints).
Proof.
  destruct endpoints as [|e endpoints]; [constructor|].
  rewrite emittedRules_eq by done.
  apply Forall_app. split.
  - apply Forall_fmap, Forall_forall. intros p _. by exists (backendRef fl).
  - constructor; [|constructor]. by exists (backendRef fl).
Qed.

(** C7: a route that [processCSV] writes has the configured hostname as
    its only hostname when that is not empty; when it is empty the route
    has no hostname and the encoder writes no [hostnames] key. *)
Theorem hostname_attached_or_omitted fl env out path out' err p r :
  processCSV fl env out path = (out', err) →
  writes out out' p r →
  (hostname fl ≠ "" →
   Hostnames (Spec r) = [hostname fl] ∧
   "hostnames" ∈ HTTPRouteSpec_keys (Spec r)) ∧
  (hostname fl = "" →
   Hostnames (Spec r) = [] ∧
   "hostnames" ∉ HTTPRouteSpec_keys (Spec r)).
Proof.
  intros Hrun Hw.
  destruct (processCSV_writes _ _ _ _ _ _ _ _ Hrun Hw)
    as (f & endpoints & _ & _ & Hne & -> & _ & _).
  unfold HTTPRouteSpec_keys. simpl. unfold hostnamesOf.
  rewrite generateRules_eq.
  split; intros Hh.
  - rewrite decide_True by done. split; [done|].
    simpl. apply elem_of_cons. right. apply elem_of_cons. by left.
  - rewrite decide_False by tauto. split; [done|].
    simpl. destruct (_ ++ [_]) eqn:Hrules.
    + by apply app_nil in Hrules as [_ ?].
    + rewrite !elem_of_cons, elem_of_nil. intros [?|[?|[]]]; done.
Qed.

(** C8: a route that [processCSV] writes has exactly one parent
    reference: group [gateway.networking.k8s.io], kind [Gateway], the
    configured gateway name, and as namespace the configured gateway
    namespace, or the route's namespace when that one is empty. *)
Theorem single_parent_reference fl env out path out' err p r :
  processCSV fl env out path = (out', err) →
  writes out out' p r →
  ∃ parent,
    ParentRefs (Spec r) = [parent] ∧
    pr_Group parent = "gateway.networking.k8s.io" ∧
    pr_Kind parent = "Gateway" ∧
    pr_Name parent = gatewayName fl ∧
    (gatewayNamespace fl ≠ "" → pr_Namespace parent = gatewayNamespace fl) ∧
    (gatewayNamespace fl = "" →
     pr_Namespace parent = namespace fl ∧
     pr_Namespace parent = md_Namespace (Metadata_ r)).
Proof.
  intros Hrun Hw.
  destruct (processCSV_writes _ _ _ _ _ _ _ _ Hrun Hw)
    as (f & endpoints & _ & _ & _ & -> & _ & _).
  exists (parentRef fl). simpl. unfold effectiveGatewayNamespace.
  repeat split; try done.
  - intros Hg. by rewrite decide_False.
  - by rewrite decide_True.
  - by rewrite decide_True.
Qed.

(** C10: when position [i] is the last one of the header whose field,
    trimmed and lower-cased, is [name], the header map sends [name] to
    [i]; for every row the parser then reads the column from field [i] of
    the row, whatever the row holds at the earlier positions. *)
Theorem last_header_occurrence_wins (header : list string) name i :
  lastOccurrence name header i →
  makeHeaderMap header !! name = Some i ∧
  ∀ record : list string,
    let e := parseRecord record (makeHeaderMap header) in
    let field :=
      match record !! i with
      | Some s => TrimSpace s
      | None => ""
      end in
    (name = "method" → e_Method e = field) ∧
    (name = "url" → URL e = field) ∧
    (name = "prefix" → Prefix e = field) ∧
    (name = "comment" → Comment e = field).
Proof.
  intros Hlast.
  assert (makeHeaderMap header !! name = Some i) as Hmap
    by apply (headerLoop_last header 0 ∅ name i Hlast).
  split; [done|]. intros record e field. subst e field.
  unfold parseRecord. simpl. rewrite !cell_trimmedField.
  unfold trimmedField.
  repeat split; intros ->; by rewrite Hmap.
Qed.

End Claims.

(** ** Reproducibility of the rules from run to run *)

Section Runs.
Context {text : GoText}.

Lemma mapLookup_Some_elem {V} k (v : V) (m : GoMap V) :
  mapLookup k m = Some v → (k, v) ∈ m.
Proof.
  induction m as [|[k' v'] m IH]; simpl; [done|].
  case_decide as Hk.
  - intros [= ->]. subst. apply list_elem_of_here.
  - intros Hm. apply list_elem_of_further. by apply IH.
Qed.

Lemma mapLookup_None_keys {V} k (m : GoMap V) :
  mapLookup k m = None ↔ k ∉ mapKeys m.
Proof.
  unfold mapKeys. induction m as [|[k' v'] m IH]; simpl.
  - split; [intros _; apply not_elem_of_nil | done].
  - rewrite not_elem_of_cons. case_decide as Hk.
    + split; [done|]. intros [Hne _]. by destruct Hne.
    + rewrite IH. split; [by split|]. by intros [_ ?].
Qed.

Lemma mapLookup_elem_Some {V} k (v : V) (m : GoMap V) :
  NoDup (mapKeys m) → (k, v) ∈ m → mapLookup k m = Some v.
Proof.
  unfold mapKeys. induction m as [|[k' v'] m IH]; simpl.
  - intros _ Hin. by apply elem_of_nil in Hin.
  - intros [Hk' Hnodup]%NoDup_cons [[= -> ->]|Hin]%elem_of_cons.
    + by rewrite decide_True.
    + case_decide as Hk; [|by apply IH]. subst k'.
      destruct Hk'. apply list_elem_of_fmap. by exists (k, v).
Qed.

(** What a lookup finds does not depend on the order of the entries. *)
Lemma mapLookup_perm {V} k (m m' : GoMap V) :
  NoDup (mapKeys m) → m ≡ₚ m' → mapLookup k m = mapLookup k m'.
Proof.
  intros Hnodup Hperm.
  assert (NoDup (mapKeys m')) as Hnodup'
    by (unfold mapKeys in *; by rewrite <- Hperm).
  destruct (mapLookup k m) as [v|] eqn:Hm.
  - symmetry. apply mapLookup_elem_Some; [done|].
    rewrite <- Hperm. by apply mapLookup_Some_elem.
  - symmetry. apply mapLookup_None_keys. apply mapLookup_None_keys in Hm.
    unfold mapKeys in *. by rewrite <- Hperm.
Qed.

Lemma mapReplace_keys {V} k (v : V) (m : GoMap V) :
  mapKeys (mapReplace k v m) = mapKeys m.
Proof.
  unfold mapKeys. induction m as [|[k' v'] m IH]; csimpl; [done|].
  case_decide; csimpl; [by subst | by rewrite IH].
Qed.

Lemma mapLookup_replace {V} k (v : V) (m : GoMap V) k' :
  is_Some (mapLookup k m) →
  mapLookup k' (mapReplace k v m) =
  if decide (k = k') then Some v else mapLookup k' m.
Proof.
  induction m as [|[k0 v0] m IH]; simpl; [by intros [? ?]|].
  destruct (decide (k0 = k)) as [->|Hk0]; simpl.
  - intros _. by destruct (decide (k = k')).
  - intros Hm. rewrite (IH Hm).
    destruct (decide (k0 = k')) as [->|]; [|done].
    by rewrite decide_False.
Qed.

Lemma mapLookup_app {V} k (m1 m2 : GoMap V) :
  mapLookup k (m1 ++ m2) =
  match mapLookup k m1 with
  | Some v => Some v
  | None => mapLookup k m2
  end.
Proof.
  induction m1 as [|[k' v'] m1 IH]; simpl; [done|]. by case_decide.
Qed.

(** A store and the lookups after it behave as on any map, whatever the
    run does to the order of the entries. *)
Lemma mapStore_lookup {V} (layout : Layout V) k (v : V) (m : GoMap V) :
  NoDup (mapKeys m) →
  NoDup (mapKeys (mapStore layout k v m)) ∧
  ∀ k', mapLookup k' (mapStore layout k v m) =
        if decide (k = k') then Some v else mapLookup k' m.
Proof.
  intros Hnodup. unfold mapStore.
  set (stored := match mapLookup k m with
                 | Some _ => mapReplace k v m
                 | None => m ++ [(k, v)]
                 end).
  assert (NoDup (mapKeys stored) ∧
          ∀ k', mapLookup k' stored =
                if decide (k = k') then Some v else mapLookup k' m)
    as [Hstored Hlookup].
  { subst stored. destruct (mapLookup k m) as [v0|] eqn:Hk.
    - split; [by rewrite mapReplace_keys|].
      intros k'. apply mapLookup_replace. by rewrite Hk.
    - split.
      + unfold mapKeys. rewrite fmap_app. apply NoDup_app.
        split; [done|]. split; [|apply NoDup_singleton].
        intros k' Hin [= ->]%list_elem_of_singleton.
        by apply mapLookup_None_keys in Hk.
      + intros k'. rewrite mapLookup_app. simpl.
        destruct (decide (k = k')) as [<-|Hne]; [by rewrite Hk|].
        by destruct (mapLookup k' m). }
  split.
  - unfold mapKeys in *. by rewrite (arrange_perm layout stored).
  - intros k'. rewrite <- Hlookup. symmetry.
    apply mapLookup_perm; [done|]. symmetry. apply arrange_perm.
Qed.

(** The grouping loop of a run and the grouping loop on the map of the
    embedding go in step: same [prefixes], same lookups. *)
Lemma foldl_groupStepIn layout endpoints
    (groups : GoMap (list Endpoint)) (prefixGroups : gmap string (list Endpoint))
    prefixes :
  NoDup (mapKeys groups) →
  (∀ k, mapLookup k groups = prefixGroups !! k) →
  (foldl (groupStepIn layout) (groups, prefixes) endpoints).2 =
  (foldl groupStep (prefixGroups, prefixes) endpoints).2.
Proof.
  revert groups prefixGroups prefixes.
  induction endpoints as [|e endpoints IH];
    intros groups prefixGroups prefixes Hnodup Hsame; [done|].
  cbn [foldl]. unfold groupStepIn at 2, groupStep at 2.
  case_decide as Hp; [|by apply IH].
  rewrite Hsame.
  destruct (mapStore_lookup layout (Prefix e)
              (default [] (prefixGroups !! Prefix e) ++ [e]) groups Hnodup)
    as [Hnodup' Hlookup].
  apply IH; [done|].
  intros k. by rewrite Hlookup, lookup_insert, Hsame.
Qed.

Lemma generateRulesIn_generateRules layout fl endpoints :
  generateRulesIn layout fl endpoints = generateRules fl endpoints.
Proof.
  unfold generateRulesIn, generateRules.
  assert ((groupByPrefixIn layout endpoints).2 = (groupByPrefix endpoints).2)
    as ->; [|done].
  apply foldl_groupStepIn.
  - apply NoDup_nil_2.
  - intros k. by rewrite lookup_empty.
Qed.

(** C9: two runs, each with its own order of map entries, that are given
    the same endpoint sequence (with at least one url) and agree on the
    service name, service namespace and port, produce the same rules in the
    same order and with the same matches: the rules [processCSV] emits. *)
Theorem rule_generation_deterministic
    (layout1 layout2 : Layout (list Endpoint)) fl1 fl2
    (endpoints : list Endpoint) :
  serviceName fl1 = serviceName fl2 →
  serviceNamespace fl1 = serviceNamespace fl2 →
  servicePort fl1 = servicePort fl2 →
  (∃ e, e ∈ endpoints ∧ URL e ≠ "") →
  generateRulesIn layout1 fl1 endpoints =
    generateRulesIn layout2 fl2 endpoints ∧
  generateRulesIn layout1 fl1 endpoints = emittedRules fl1 endpoints.
Proof.
  intros Hname Hns Hport (e & He & _).
  assert (endpoints ≠ []) as Hne by (intros ->; by apply elem_of_nil in He).
  rewrite !generateRulesIn_generateRules. split.
  - rewrite !generateRules_eq.
    unfold rule1, rule2, backendRef. by rewrite Hname, Hns, Hport.
  - unfold emittedRules. rewrite decide_False; [done | by destruct endpoints].
Qed.

End Runs.

(** ** The resource name *)

Section NameClaims.



Example resourceNameOf_checkout :
  resourceNameOf "facts/endpoints/endpoints-checkout.csv" = "checkout".
Proof. reflexivity. Qed.

Example resourceNameOf_user_service :
  resourceNameOf "endpoints-user_service.csv" = "user-service".
Proof. reflexivity. Qed.

(** The token is removed wherever it stands, and a name without it
    collides with the conventional one. *)
Example resourceNameOf_token_inside :
  resourceNameOf "v2-endpoints-api.csv" = "v2-api" ∧
  resourceNameOf "api.csv" = resourceNameOf "endpoints-api.csv".
Proof. split; reflexivity. Qed.

End NameClaims.

(** ** The properties at the sample inputs *)

Section Samples.
Existing Instance ascii_text.

Example collect_usersTable : collect usersTable = inr usersEndpoints.
Proof. reflexivity. Qed.

Lemma catch_all_rule_is_last_witness :
  usersEndpoints ≠ [] ∧
  ∃ rewrites catchAll,
    emittedRules defaultFlags usersEndpoints = rewrites ++ [catchAll] ∧
    last (emittedRules defaultFlags usersEndpoints) = Some catchAll ∧
    Forall isRewriteRule rewrites ∧
    ¬ isRewriteRule catchAll ∧
    Matches catchAll =
      (λ e, {| Path := Some {| pm_Type := "PathPrefix"; pm_Value := URL e |};
               Method := ToUpper (e_Method e) |}) <$> usersEndpoints ∧
    length (Matches catchAll) = length usersEndpoints.
Proof.
  split; [discriminate|].
  apply (catch_all_rule_is_last defaultFlags usersEndpoints). discriminate.
Defined.


Lemma no_endpoints_no_output_witness :
  processCSV defaultFlags (worldOf commentsOnly) nothingYet
    "facts/endpoints/endpoints-empty.csv" = (nothingYet, None).
Proof.
  apply (no_endpoints_no_output defaultFlags (worldOf commentsOnly) nothingYet
           "facts/endpoints/endpoints-empty.csv" commentsOnly);
    reflexivity.
Defined.

Lemma row_collected_iff_collectable_witness :
  URL (parseRecord ["GET"] (makeHeaderMap ["Method"; "URL"])) = "".
Proof.
  apply (proj2 (proj2 (proj2 row_collected_iff_collectable))
           ["GET"] (makeHeaderMap ["Method"; "URL"]) 1);
    [simpl; lia | reflexivity].
Defined.

Lemma hostname_attached_or_omitted_witness :
  let run := processCSV productionFlags (worldOf usersTable) nothingYet
               "endpoints-checkout.csv" in
  let r := assemble productionFlags "endpoints-checkout.csv" usersEndpoints in
  writes nothingYet run.1 "k8s/routes/checkout.yaml" r ∧
  Hostnames (Spec r) = ["api.example.com"].
Proof.
  intros run r.
  assert (writes nothingYet run.1 "k8s/routes/checkout.yaml" r) as Hw.
  { split; [reflexivity | discriminate]. }
  split; [exact Hw|].
  apply (hostname_attached_or_omitted productionFlags (worldOf usersTable)
           nothingYet "endpoints-checkout.csv" run.1 run.2
           "k8s/routes/checkout.yaml" r);
    [apply surjective_pairing | exact Hw | discriminate].
Defined.

Lemma single_parent_reference_witness :
  let run := processCSV productionFlags (worldOf usersTable) nothingYet
               "endpoints-checkout.csv" in
  let r := assemble productionFlags "endpoints-checkout.csv" usersEndpoints in
  writes nothingYet run.1 "k8s/routes/checkout.yaml" r ∧
  ∃ parent,
    ParentRefs (Spec r) = [parent] ∧
    pr_Group parent = "gateway.networking.k8s.io" ∧
    pr_Kind parent = "Gateway" ∧
    pr_Name parent = "shared-gw" ∧
    pr_Namespace parent = "production".
Proof.
  intros run r.
  assert (writes nothingYet run.1 "k8s/routes/checkout.yaml" r) as Hw.
  { split; [reflexivity | discriminate]. }
  split; [exact Hw|].
  destruct (single_parent_reference productionFlags (worldOf usersTable)
              nothingYet "endpoints-checkout.csv" run.1 run.2
              "k8s/routes/checkout.yaml" r)
    as (parent & Hrefs & Hgroup & Hkind & Hname & _ & Hns);
    [apply surjective_pairing | exact Hw |].
  exists parent. repeat split; try assumption.
  apply Hns. reflexivity.
Defined.

Lemma rule_generation_deterministic_witness :
  generateRulesIn keepLayout defaultFlags shopEndpoints =
    generateRulesIn reverseLayout productionFlags shopEndpoints ∧
  generateRulesIn keepLayout defaultFlags shopEndpoints =
    emittedRules defaultFlags shopEndpoints.
Proof.
  apply (rule_generation_deterministic keepLayout reverseLayout
           defaultFlags productionFlags shopEndpoints);
    try reflexivity.
  eexists. split; [apply list_elem_of_here | discriminate].
Defined.

(** The two runs do differ in the order in which a [range] over
    [prefixGroups] would visit the prefixes. *)
Example range_order_differs_between_runs :
  mapKeys (groupByPrefixIn keepLayout shopEndpoints).1 = ["/user"; "/shop"] ∧
  mapKeys (groupByPrefixIn reverseLayout shopEndpoints).1 = ["/shop"; "/user"].
Proof. split; reflexivity. Qed.

Lemma last_header_occurrence_wins_witness :
  lastOccurrence "url" ["URL"; "Method"; " Url "] 2 ∧
  makeHeaderMap ["URL"; "Method"; " Url "] !! "url" = Some 2 ∧
  URL (parseRecord ["/old"; "GET"; "/new"]
         (makeHeaderMap ["URL"; "Method"; " Url "])) = "/new".
Proof.
  assert (lastOccurrence "url" ["URL"; "Method"; " Url "] 2) as Hlast.
  { split; [by exists " Url "|].
    intros j h Hj. do 3 (destruct j as [|j]; [lia|]). discriminate. }
  split; [exact Hlast|].
  destruct (last_header_occurrence_wins ["URL"; "Method"; " Url "] "url" 2 Hlast)
    as [Hmap Hread].
  split; [exact Hmap|].
  apply (Hread ["/old"; "GET"; "/new"]). reflexivity.
Defined.

End Samples.


(** ** Further properties: header map, parser and collector *)

Section CollectorProperties.
Context {text : GoText}.

Lemma lastOccurrence_or_absent (header : list string) name :
  (∃ i, lastOccurrence name header i) ∨
  (∀ j h, header !! j = Some h → columnKey h ≠ name).
Proof.
  induction header as [|h header IH].
  - right. intros j h Hj. by rewrite lookup_nil in Hj.
  - destruct IH as [[i [(h0 & Hi & Hkey) Hlast]]|Hnone].
    + left. exists (S i). split; [by exists h0|].
      intros [|j] h' Hlt Hj; [lia|].
      apply (Hlast j h'); [lia | done].
    + destruct (decide (columnKey h = name)) as [Hkey|Hkey].
      * left. exists 0. split; [by exists h|].
        intros [|j] h' Hlt Hj; [lia|]. by apply (Hnone j h').
      * right. intros [|j] h' Hj; [by injection Hj as <-|].
        by apply (Hnone j h').
Qed.

Lemma lastOccurrence_bound name (header : list string) i :
  lastOccurrence name header i → i < length header.
Proof. intros [(h & Hi & _) _]. by apply lookup_lt_Some in Hi. Qed.

Lemma makeHeaderMap_cases (header : list string) name :
  (∃ j, lastOccurrence name header j ∧ makeHeaderMap header !! name = Some j) ∨
  ((∀ j h, header !! j = Some h → columnKey h ≠ name) ∧
   makeHeaderMap header !! name = None).
Proof.
  unfold makeHeaderMap.
  destruct (lastOccurrence_or_absent header name) as [[j Hj]|Hnone].
  - left. exists j. split; [done|].
    by rewrite (headerLoop_last header 0 ∅ name j Hj).
  - right. split; [done|].
    by rewrite (headerLoop_absent header 0 ∅ name Hnone), lookup_empty.
Qed.

Lemma makeHeaderMap_bound (header : list string) name i :
  makeHeaderMap header !! name = Some i → i < length header.
Proof.
  destruct (makeHeaderMap_cases header name) as [(j & Hj & ->)|[_ ->]];
    [|done].
  intros [= <-]. by apply (lastOccurrence_bound name).
Qed.

Lemma makeHeaderMap_absent (header : list string) name :
  (∀ h, h ∈ header → columnKey h ≠ name) →
  makeHeaderMap header !! name = None.
Proof.
  intros Hno.
  destruct (makeHeaderMap_cases header name)
    as [(j & [(h & Hh & Hkey) _] & _)|[_ ->]]; [|done].
  destruct (Hno h); [|done]. by apply list_elem_of_lookup_2 in Hh.
Qed.

(** The header map holds exactly the last position of every column name
    that occurs in the header, and nothing for a name that does not. *)
Theorem header_map_lookup (header : list string) name :
  (∀ i, makeHeaderMap header !! name = Some i ↔
        lastOccurrence name header i) ∧
  (makeHeaderMap header !! name = None ↔
   ∀ h, h ∈ header → columnKey h ≠ name).
Proof.
  destruct (makeHeaderMap_cases header name) as [(j & Hj & Hmap)|[Hnone Hmap]];
    rewrite Hmap.
  - split.
    + intros i. split; [by intros [= <-] | intros Hi].
      f_equal.
      destruct Hj as [(hj & Hhj & Hkj) Hlj], Hi as [(hi & Hhi & Hki) Hli].
      destruct (Nat.lt_trichotomy i j) as [Hlt|[->|Hlt]]; [|done|].
      * by destruct (Hli j hj Hlt Hhj).
      * by destruct (Hlj i hi Hlt Hhi).
    + split; [done|]. intros Hno. exfalso.
      destruct Hj as [(hj & Hhj & Hkj) _].
      apply (Hno hj); [|done]. by apply list_elem_of_lookup_2 in Hhj.
  - split.
    + intros i. split; [done|]. intros [(h & Hi & Hkey) _].
      by destruct (Hnone i h Hi).
    + split; [|done]. intros _ h Hh.
      apply list_elem_of_lookup in Hh as [j Hj]. by apply (Hnone j).
Qed.

Lemma trimmedField_app record extra (headerMap : gmap string nat) name :
  (∀ idx, headerMap !! name = Some idx → idx < length record) →
  trimmedField (record ++ extra) headerMap name =
  trimmedField record headerMap name.
Proof.
  intros Hbound. unfold trimmedField.
  destruct (headerMap !! name) as [idx|] eqn:Hidx; simpl; [|done].
  by rewrite lookup_app_l by auto.
Qed.

(** Fields of a row beyond the columns of the header are not read. *)
Theorem fields_beyond_header_ignored (header record extra : list string) :
  length header ≤ length record →
  parseRecord (record ++ extra) (makeHeaderMap header) =
  parseRecord record (makeHeaderMap header).
Proof.
  intros Hlen. unfold parseRecord. rewrite !cell_trimmedField.
  assert (∀ name idx, makeHeaderMap header !! name = Some idx →
                      idx < length record) as Hbound.
  { intros name idx Hidx. apply makeHeaderMap_bound in Hidx. lia. }
  by rewrite !trimmedField_app by eauto.
Qed.

Lemma collectable_url headerMap record :
  collectable headerMap record →
  URL (parseRecord record headerMap) ≠ EmptyString.
Proof.
  intros [_ Hurl]. unfold parseRecord. simpl. by rewrite cell_trimmedField.
Qed.

Lemma collect_urls f endpoints :
  collect f = inr endpoints → Forall (λ e, URL e ≠ EmptyString) endpoints.
Proof.
  intros (header & rows & _ & _ & ->)%collect_inr.
  apply Forall_fmap, Forall_forall. intros record Hrecord.
  apply list_elem_of_filter in Hrecord as [Hc _]. by apply collectable_url.
Qed.

(** Every collected endpoint has a url, and there are fewer endpoints than
    records in the file. *)
Theorem collected_endpoints_have_url f endpoints :
  collect f = inr endpoints →
  Forall (λ e, URL e ≠ "") endpoints ∧
  length endpoints < length (records f).
Proof.
  intros Hcollect. split; [by apply (collect_urls f)|].
  apply collect_inr in Hcollect as (header & rows & Hrecords & _ & ->).
  rewrite Hrecords, length_fmap. simpl.
  pose proof (length_filter (collectable (makeHeaderMap header)) rows). lia.
Qed.

Lemma filter_collectable_no_url (headerMap : gmap string nat) rows :
  headerMap !! "url" = None → filter (collectable headerMap) rows = [].
Proof.
  intros Hnone. induction rows as [|record rows IH]; [done|].
  rewrite filter_cons_False; [done|]. intros [_ Hurl]. apply Hurl.
  unfold trimmedField. by rewrite Hnone.
Qed.

(** A header without a [url] column: whatever the rows hold and however
    the reading ends, [processCSV] makes no file and prints nothing; it
    returns the reader's error when the reading ends with one, and no error
    otherwise, nothing having been collected. *)
Theorem no_url_column_no_output fl env out path header rows final :
  (∀ h, h ∈ header → columnKey h ≠ "url") →
  os_Open env path = inr {| records := header :: rows; final := final |} →
  processCSV fl env out path = (out, readError final) ∧
  (readError final = None →
   collect {| records := header :: rows; final := final |} = inr []).
Proof.
  intros Hno Hopen.
  assert (collect {| records := header :: rows; final := final |} =
          match readError final with
          | Some err => inl err
          | None => inr []
          end) as Hcollect.
  { unfold collect. simpl.
    rewrite readLoop_end, filter_collectable_no_url; [done|].
    by apply makeHeaderMap_absent. }
  split.
  - unfold processCSV. rewrite Hopen, Hcollect.
    by destruct (readError final).
  - intros Hok. by rewrite Hcollect, Hok.
Qed.

(** A file without header, or whose reading ends with an error other than
    [io.EOF], makes [processCSV] fail with the reader's error ([io.EOF] for
    the missing header); no output is made, also when rows before the
    failure were good. *)
Theorem read_failure_no_output fl env out path f :
  os_Open env path = inr f →
  records f = [] ∨ readError (final f) ≠ None →
  processCSV fl env out path = (out, Some (default EOF (final f))).
Proof.
  intros Hopen Hbad. unfold processCSV. rewrite Hopen.
  replace (collect f) with (@inl error (list Endpoint) (default EOF (final f)));
    [done|].
  unfold collect. destruct f as [[|header rows] fin]; simpl in *.
  - by destruct fin.
  - destruct Hbad as [?|Hbad]; [done|].
    rewrite readLoop_end.
    destruct fin as [[|msg]|]; simpl in *; done.
Qed.

End CollectorProperties.

(** ** Further properties: the grouping and the rules *)

Section GeneratorProperties.
Context {text : GoText}.

Lemma foldl_groupStep_groups endpoints
    (prefixGroups : gmap string (list Endpoint)) prefixes p :
  (foldl groupStep (prefixGroups, prefixes) endpoints).1 !! p =
  let group := filter (λ e, Prefix e = p) endpoints in
  if decide (p = EmptyString ∨ group = []) then prefixGroups !! p
  else Some (default [] (prefixGroups !! p) ++ group).
Proof.
  revert prefixGroups prefixes.
  induction endpoints as [|e endpoints IH]; intros prefixGroups prefixes.
  { simpl. rewrite decide_True; [done | by right]. }
  cbn [foldl]. unfold groupStep at 2.
  destruct (decide (Prefix e ≠ EmptyString)) as [Hp|Hp].
  - rewrite IH. cbn zeta. rewrite filter_cons.
    destruct (decide (Prefix e = p)) as [<-|Hne].
    + rewrite lookup_insert_eq. cbn [default].
      rewrite (decide_False (P := _ ∨ _ :: _ = [])) by (intros [?|?]; done).
      destruct (filter _ endpoints) as [|e' group] eqn:Hgroup.
      * by rewrite decide_True by (by right).
      * rewrite decide_False by (intros [?|?]; done).
        unfold id. by rewrite <- app_assoc.
    + by rewrite lookup_insert_ne.
  - rewrite IH. cbn zeta. rewrite filter_cons.
    destruct (decide (Prefix e = p)) as [<-|Hne]; [|done].
    assert (Prefix e = EmptyString) as Hempty
      by (destruct (decide (Prefix e = EmptyString)); tauto).
    rewrite !decide_True; [done | by left | by left].
Qed.

(** The group kept for a prefix holds exactly the endpoints with that
    prefix, in the order of the sequence; there is no group for the empty
    prefix or for a prefix no endpoint has. *)
Theorem group_holds_endpoints_of_prefix (endpoints : list Endpoint) p group :
  (groupByPrefix endpoints).1 !! p = Some group ↔
  p ≠ "" ∧ group ≠ [] ∧ group = filter (λ e, Prefix e = p) endpoints.
Proof.
  unfold groupByPrefix. rewrite foldl_groupStep_groups, lookup_empty.
  cbn zeta. cbn [default]. case_decide as Hg.
  - split; [done|]. intros (Hp & Hne & ->). tauto.
  - split.
    + intros [= <-]. tauto.
    + by intros (_ & _ & ->).
Qed.

Lemma groupByPrefix_is_Some (endpoints : list Endpoint) p :
  is_Some ((groupByPrefix endpoints).1 !! p) ↔
  p ≠ EmptyString ∧ p ∈ Prefix <$> endpoints.
Proof.
  unfold groupByPrefix. rewrite foldl_groupStep_groups, lookup_empty.
  cbn zeta. rewrite list_elem_of_fmap.
  destruct (filter (λ e, Prefix e = p) endpoints) as [|e group] eqn:Hfilter.
  - rewrite decide_True by (by right). split; [by intros [? ?]|].
    intros (_ & e & -> & He). exfalso.
    by apply (filter_nil_not_elem_of _ _ e Hfilter).
  - assert (e ∈ filter (λ e', Prefix e' = p) endpoints) as He
      by (rewrite Hfilter; apply list_elem_of_here).
    apply list_elem_of_filter in He as [Hp He].
    case_decide as Hg.
    + destruct Hg as [Hg|Hg]; [|done]. split; [by intros [? ?] | tauto].
    + split; [|by eauto]. intros _. split; [tauto | by exists e].
Qed.

(** [prefixes] lists the keys of [prefixGroups], each once. *)
Theorem prefixes_are_the_group_keys (endpoints : list Endpoint) :
  NoDup (groupByPrefix endpoints).2 ∧
  ∀ p, p ∈ (groupByPrefix endpoints).2 ↔
       is_Some ((groupByPrefix endpoints).1 !! p).
Proof.
  split.
  - rewrite groupByPrefix_prefixes. apply firstSeen_NoDup.
  - intros p. rewrite groupByPrefix_is_Some, groupByPrefix_prefixes.
    rewrite firstSeen_elem_of. unfold nonEmptyPrefixes.
    by rewrite list_elem_of_filter.
Qed.

Lemma firstSeen_app (l1 l2 : list string) :
  firstSeen (l1 ++ l2) =
  firstSeen l1 ++ filter (λ x, x ∉ l1) (firstSeen l2).
Proof.
  induction l1 as [|y l1 IH]; simpl.
  - symmetry. apply filter_all. intros x. apply not_elem_of_nil.
  - f_equal. rewrite IH, filter_app. f_equal.
    rewrite list_filter_filter. apply list_filter_iff. intros x.
    rewrite not_elem_of_cons. tauto.
Qed.

(** One more endpoint at the end of a non-empty sequence: the rules stay as
    they are, but the catch-all rule gains the endpoint's match at its end
    and, when the endpoint brings a prefix not seen before, one rewrite rule
    for it is put just before the catch-all rule. *)
Theorem rules_after_one_more_endpoint fl (endpoints : list Endpoint) e :
  endpoints ≠ [] →
  ∃ rewrites catchAll,
    emittedRules fl endpoints = rewrites ++ [catchAll] ∧
    emittedRules fl (endpoints ++ [e]) =
      rewrites ++
      (if decide (Prefix e ≠ "" ∧ Prefix e ∉ Prefix <$> endpoints)
       then [rule1 fl (Prefix e)] else []) ++
      [ {| Matches := Matches catchAll ++
                      [ {| Path := Some {| pm_Type := "PathPrefix";
                                           pm_Value := URL e |};
                           Method := ToUpper (e_Method e) |} ];
           Filters := Filters catchAll;
           BackendRefs := BackendRefs catchAll |} ].
Proof.
  intros Hne.
  exists (rule1 fl <$> firstSeen (nonEmptyPrefixes endpoints)),
         (rule2 fl endpoints).
  split; [by apply emittedRules_eq|].
  rewrite emittedRules_eq by (by destruct endpoints).
  rewrite rule2_matches.
  unfold nonEmptyPrefixes. rewrite fmap_app, filter_app, firstSeen_app.
  rewrite fmap_app, <- app_assoc. f_equal.
  change (filter (λ p, p ≠ EmptyString) (Prefix <$> [e]))
    with (if decide (Prefix e ≠ EmptyString) then [Prefix e] else []).
  f_equal.
  - destruct (decide (Prefix e ≠ EmptyString)) as [Hp|Hp].
    + simpl. change (filter (λ y : string, y ≠ Prefix e) []) with (@nil string).
      rewrite filter_cons.
      destruct (decide (Prefix e ∉ filter (λ p, p ≠ EmptyString) (Prefix <$> endpoints)))
        as [Hnew|Hold].
      * rewrite decide_True; [done|]. split; [done|].
        intros Hin. apply Hnew, list_elem_of_filter. done.
      * rewrite decide_False; [done|]. intros [_ Hnew]. apply Hold.
        intros [_ Hin]%list_elem_of_filter. done.
    + rewrite decide_False; [done | tauto].
  - f_equal. unfold rule2. simpl. f_equal.
    by rewrite !foldl_append, fmap_app.
Qed.

End GeneratorProperties.

(** ** Further properties: the resource name *)

Section ResourceNameProperties.

Lemma hyphenate_no_underscore s : ¬ occurs "_"%char (hyphenate s).
Proof.
  induction s as [|c s IH]; simpl; [tauto|].
  intros [Hc|Hs]; [|tauto].
  case_decide; [discriminate Hc | congruence].
Qed.

(** The resource name never holds an underscore. *)
Theorem resource_name_has_no_underscore path :
  ¬ occurs "_"%char (resourceNameOf path).
Proof.
  unfold resourceNameOf. rewrite replace_underscores.
  apply hyphenate_no_underscore.
Qed.

Lemma occurs_hyphenate c s :
  c ≠ "-"%char → occurs c (hyphenate s) → occurs c s.
Proof.
  intros Hc. induction s as [|d s IH]; simpl; [tauto|].
  intros [Hd|Hs]; [|tauto].
  case_decide; [congruence | by left].
Qed.

Lemma occurs_replaceFrom c old new skip s :
  occurs c (strings.replaceFrom old new skip s) → occurs c new ∨ occurs c s.
Proof.
  revert skip. induction s as [|d s IH]; intros skip; [simpl; tauto|].
  cbn [strings.replaceFrom]. destruct skip as [|k].
  - destruct (String.prefix old (String d s)).
    + rewrite occurs_app. intros [?|Hs]; [tauto|].
      apply IH in Hs. simpl. tauto.
    + simpl. intros [?|Hs]; [tauto|]. apply IH in Hs. tauto.
  - intros Hs. apply IH in Hs. simpl. tauto.
Qed.

Lemma occurs_ReplaceAll c s old new :
  occurs c (strings.ReplaceAll s old new) → occurs c new ∨ occurs c s.
Proof.
  unfold strings.ReplaceAll. destruct old; [tauto|].
  apply occurs_replaceFrom.
Qed.

Lemma occurs_take c n s : occurs c (strings.take n s) → occurs c s.
Proof.
  revert n. induction s as [|d s IH]; intros [|n]; simpl; try tauto.
  intros [?|Hs]; [tauto|]. right. by apply (IH n).
Qed.

Lemma occurs_TrimSuffix c s suffix :
  occurs c (strings.TrimSuffix s suffix) → occurs c s.
Proof.
  unfold strings.TrimSuffix. destruct (strings.HasSuffix s suffix); [|done].
  apply occurs_take.
Qed.

Lemma occurs_get c s : occurs c s → ∃ j, String.get j s = Some c.
Proof.
  induction s as [|d s IH]; simpl; [tauto|].
  intros [->|Hs]; [by exists 0|].
  destruct (IH Hs) as [j Hj]. by exists (S j).
Qed.

Lemma get_lt j s c : String.get j s = Some c → j < String.length s.
Proof.
  revert j. induction s as [|d s IH]; intros [|j]; simpl; try done; [lia|].
  intros Hj. apply IH in Hj. lia.
Qed.

Lemma get_drop k j s : String.get j (strings.drop k s) = String.get (k + j) s.
Proof.
  revert s. induction k as [|k IH]; intros s; [by destruct s|].
  destruct s as [|d s]; [done|]. simpl. apply IH.
Qed.

Lemma get_app_r s t j :
  String.get (String.length s + j) (s +:+ t) = String.get j t.
Proof. induction s as [|d s IH]; [done|]. rewrite app_String. simpl. apply IH. Qed.

Lemma length_drop k s :
  String.length (strings.drop k s) = String.length s - k.
Proof.
  revert s. induction k as [|k IH]; intros s; [destruct s; simpl; lia|].
  destruct s as [|d s]; [done|]. simpl. apply IH.
Qed.

Lemma take_drop n s : strings.take n s +:+ strings.drop n s = s.
Proof.
  revert s. induction n as [|n IH]; intros [|d s]; try done.
  simpl. by rewrite app_String, IH.
Qed.

Lemma HasSuffix_app s suffix :
  strings.HasSuffix s suffix = true → ∃ s', s = s' +:+ suffix.
Proof.
  unfold strings.HasSuffix. intros [_ Heq%String.eqb_eq]%andb_true_iff.
  exists (strings.take (String.length s - String.length suffix) s).
  rewrite <- (take_drop (String.length s - String.length suffix) s) at 1.
  by rewrite Heq.
Qed.

Lemma lastSeparator_None path n :
  filepath.lastSeparator path n = None →
  ∀ j, j < n → String.get j path ≠ Some filepath.Separator.
Proof.
  induction n as [|n IH]; [lia|]. simpl.
  case_decide as Hn; [done|]. intros Hnone j Hj.
  destruct (decide (j = n)) as [->|]; [done|]. apply IH; [done | lia].
Qed.

Lemma lastSeparator_Some path n i :
  filepath.lastSeparator path n = Some i →
  i < n ∧ String.get i path = Some filepath.Separator ∧
  ∀ j, i < j < n → String.get j path ≠ Some filepath.Separator.
Proof.
  induction n as [|n IH]; [done|]. simpl.
  case_decide as Hn.
  - intros [= <-]. repeat split; [lia | done | lia].
  - intros (Hi & Hget & Hafter)%IH. repeat split; [lia | done |].
    intros j Hj. destruct (decide (j = n)) as [->|]; [done|].
    apply Hafter. lia.
Qed.

(** [filepath.Base] of a path that ends in [.csv] holds no separator. *)
Lemma Base_csv_no_separator path :
  strings.HasSuffix path ".csv" = true →
  ¬ occurs filepath.Separator (filepath.Base path).
Proof.
  intros [stem ->]%HasSuffix_app.
  set (path := stem +:+ ".csv").
  assert (String.length path = String.length stem + 4) as Hlen
    by (unfold path; by rewrite length_app).
  assert (String.get (String.length stem + 3) path = Some "v"%char) as Hlast
    by (unfold path; by rewrite get_app_r).
  clearbody path. unfold filepath.Base.
  rewrite decide_False by (intros Hempty; rewrite Hempty in Hlen; simpl in Hlen; lia).
  assert (filepath.stripTrailing path (String.length path) = String.length path)
    as ->.
  { rewrite Hlen. replace (String.length stem + 4) with (S (String.length stem + 3)) by lia.
    simpl. rewrite decide_False; [done|]. by rewrite Hlast. }
  rewrite take_all.
  destruct (filepath.lastSeparator path (String.length path)) as [i|] eqn:Hsep.
  - apply lastSeparator_Some in Hsep as (Hi & Hget & Hafter).
    assert (i ≠ String.length stem + 3) as Hne
      by (intros ->; rewrite Hlast in Hget; discriminate Hget).
    rewrite decide_False.
    + intros [j Hj]%occurs_get. rewrite get_drop in Hj.
      apply (Hafter (i + 1 + j)); [|done].
      apply get_lt in Hj. lia.
    + intros Hempty.
      pose proof (length_drop (i + 1) path) as Hdrop.
      rewrite Hempty in Hdrop. simpl in Hdrop. lia.
  - rewrite decide_False by (intros Hempty; rewrite Hempty in Hlen; simpl in Hlen; lia).
    intros [j Hj]%occurs_get.
    apply (lastSeparator_None path _ Hsep j); [|done]. by apply get_lt in Hj.
Qed.

(** For a path that ends in [.csv] (the test of lines 141 and 153) the
    resource name holds no path separator. *)
Theorem resource_name_has_no_separator path :
  strings.HasSuffix path ".csv" = true →
  ¬ occurs "/"%char (resourceNameOf path).
Proof.
  intros Hcsv Hocc. unfold resourceNameOf in Hocc.
  rewrite replace_underscores in Hocc.
  apply occurs_hyphenate in Hocc; [|done].
  apply occurs_ReplaceAll in Hocc as [Hocc|Hocc]; [done|].
  apply occurs_TrimSuffix in Hocc.
  by apply (Base_csv_no_separator path).
Qed.

End ResourceNameProperties.

(** ** Further properties: what [processCSV] does to the output *)

Section OutputProperties.
Context {text : GoText}.

(** A call of [processCSV] ends in exactly one of three ways.  It does not
    get as far as creating its output file: the output is as it was, and if
    there is no error, nothing was collected.  Or it creates the file and
    the encoding fails: there is an error, the file is left incomplete and
    nothing is printed.  Or it creates the file and the encoding succeeds:
    there is no error, the file holds a complete document and its
    [Generated] line is printed last. *)
Theorem processCSV_outcomes fl env out path out' err :
  processCSV fl env out path = (out', err) →
  let untouched :=
    ¬ createsFile fl env path ∧ out' = out ∧
    (err = None → ∃ f, os_Open env path = inr f ∧ collect f = inr []) in
  let incomplete :=
    createsFile fl env path ∧
    ∃ e, err = Some e ∧
         files out' = <[outPathOf fl path := None]> (files out) ∧
         stdout out' = stdout out in
  let complete :=
    createsFile fl env path ∧ err = None ∧
    ∃ r, files out' = <[outPathOf fl path := Some r]> (files out) ∧
         stdout out' = stdout out ++ [generatedLine (outPathOf fl path)] in
  (untouched ∨ incomplete ∨ complete) ∧
  ¬ (untouched ∧ incomplete) ∧ ¬ (untouched ∧ complete) ∧
  ¬ (incomplete ∧ complete).
Proof.
  intros Hrun untouched incomplete complete.
  assert (¬ (untouched ∧ incomplete) ∧ ¬ (untouched ∧ complete) ∧
          ¬ (incomplete ∧ complete)) as Hexclusive.
  { subst untouched incomplete complete. repeat split.
    - by intros [[Hno _] [Hyes _]].
    - by intros [[Hno _] [Hyes _]].
    - intros [(_ & e & -> & _) (_ & Hnone & _)]. discriminate Hnone. }
  split; [|exact Hexclusive]. clear Hexclusive.
  subst untouched incomplete complete. revert Hrun.
  unfold processCSV. fold (outPathOf fl path).
  destruct (os_Open env path) as [e|f] eqn:Hopen.
  { intros [= <- <-]. left. split; [|by split].
    intros (f & endpoints & Hf & _). congruence. }
  destruct (collect f) as [e|endpoints] eqn:Hcollect.
  { intros [= <- <-]. left. split; [|by split].
    intros (f' & endpoints & Hf & Hc & _). congruence. }
  case_decide as Hlen.
  { intros [= <- <-]. left.
    assert (endpoints = []) as -> by (by destruct endpoints).
    split; [|split; [done | by exists f]].
    intros (f' & endpoints & Hf & Hc & Hne & _). congruence. }
  assert (endpoints ≠ []) as Hne by (by destruct endpoints).
  destruct (os_Create env (outPathOf fl path)) as [e|] eqn:Hcreate.
  { intros [= <- <-]. left. split; [|by split].
    intros (_ & _ & _ & _ & _ & Hc). congruence. }
  assert (createsFile fl env path) as Hcreated
    by (by exists f, endpoints).
  destruct (Encode env _ _) as [e|]; intros [= <- <-]; right.
  - left. split; [done|]. by exists e.
  - right. split; [done|]. split; [done|]. by eexists.
Qed.

(** The files after a call are those before it, but for the one at the
    output path; what was printed is a prefix of what is printed. *)
Lemma processCSV_change fl env out path :
  (files (processCSV fl env out path).1 = files out ∨
   ∃ v, files (processCSV fl env out path).1 =
        <[outPathOf fl path := v]> (files out)) ∧
  stdout out `prefix_of` stdout (processCSV fl env out path).1.
Proof.
  unfold processCSV. fold (outPathOf fl path).
  destruct (os_Open env path) as [e|f]; [by split; [left|]|].
  destruct (collect f) as [e|endpoints]; [by split; [left|]|].
  case_decide; [by split; [left|]|].
  destruct (os_Create env _) as [e|]; [by split; [left|]|].
  destruct (Encode env _ _) as [e|]; simpl.
  - split; [right; by eexists | done].
  - split; [right; by eexists | by apply prefix_app_r].
Qed.

Lemma processCSV_extends fl env out path :
  extends out (processCSV fl env out path).1.
Proof.
  destruct (processCSV_change fl env out path) as [[Hfiles|[v Hfiles]] Hout];
    (split; [|done]); rewrite Hfiles; [done|].
  rewrite dom_insert_L. set_solver.
Qed.

(** [processCSV] loses no file, only adds to what is printed, and leaves
    every file but the one at its output path as it was. *)
Theorem processCSV_touches_one_file fl env out path out' err :
  processCSV fl env out path = (out', err) →
  extends out out' ∧
  ∀ q, q ≠ outPathOf fl path → files out' !! q = files out !! q.
Proof.
  intros Hrun. split.
  - pose proof (processCSV_extends fl env out path) as Hext.
    by rewrite Hrun in Hext.
  - intros q Hq.
    destruct (processCSV_change fl env out path) as [[Hfiles|[v Hfiles]] _];
      rewrite Hrun in Hfiles; simpl in Hfiles; rewrite Hfiles; [done|].
    by rewrite lookup_insert_ne.
Qed.

(** Whether and how a file fails does not depend on what was produced
    before, and a document it writes from one state it writes from any. *)
Lemma processCSV_independent fl env out1 out2 path :
  (processCSV fl env out1 path).2 = (processCSV fl env out2 path).2 ∧
  ∀ p r,
    writes out1 (processCSV fl env out1 path).1 p r →
    p = outPathOf fl path ∧
    (processCSV fl env out1 path).2 = None ∧
    files (processCSV fl env out2 path).1 !! p = Some (Some r) ∧
    generatedLine p ∈ stdout (processCSV fl env out2 path).1.
Proof.
  unfold processCSV, writes. fold (outPathOf fl path).
  destruct (os_Open env path) as [e|f]; [split; [done | by intros p r [? ?]]|].
  destruct (collect f) as [e|endpoints];
    [split; [done | by intros p r [? ?]]|].
  case_decide; [split; [done | by intros p r [? ?]]|].
  destruct (os_Create env _) as [e|]; [split; [done | by intros p r [? ?]]|].
  destruct (Encode env _ _) as [e|]; simpl; (split; [done|]); intros p r [Hnew Hold].
  - rewrite lookup_insert in Hnew. by case_decide.
  - rewrite lookup_insert in Hnew. case_decide as Hp; [|done].
    injection Hnew as <-. subst p. split; [done|]. split; [done|].
    split; [apply lookup_insert_eq|].
    apply elem_of_app. right. apply list_elem_of_singleton. done.
Qed.


(** A route that [processCSV] writes lies in the file named after it; it
    has rules, every rule has matches, and every match is a [PathPrefix]
    match on a path that is not empty. *)
Theorem written_route_is_well_formed fl env out path out' err p r :
  processCSV fl env out path = (out', err) →
  writes out out' p r →
  p = Join (outputDir fl) (md_Name (Metadata_ r) +:+ ".yaml") ∧
  Rules (Spec r) ≠ [] ∧
  Forall
    (λ rule,
       Matches rule ≠ [] ∧
       Forall
         (λ m, ∃ value,
            Path m = Some {| pm_Type := "PathPrefix"; pm_Value := value |} ∧
            value ≠ "")
         (Matches rule))
    (Rules (Spec r)).
Proof.
  intros Hrun Hw.
  destruct (processCSV_writes _ _ _ _ _ _ _ _ Hrun Hw)
    as (f & endpoints & _ & Hcollect & Hne & -> & -> & _).
  split; [done|]. simpl. rewrite generateRules_eq.
  split; [by intros [_ ?]%app_nil|].
  apply Forall_app. split.
  - apply Forall_fmap, Forall_forall. intros prefix Hprefix.
    apply firstSeen_elem_of, list_elem_of_filter in Hprefix as [Hprefix _].
    split; [done|]. constructor; [|constructor]. by exists prefix.
  - constructor; [|constructor]. rewrite rule2_matches. split.
    + by destruct endpoints.
    + apply collect_urls in Hcollect as Hurl.
      apply Forall_fmap. eapply Forall_impl; [exact Hurl|].
      intros e He. by exists (URL e).
Qed.

End OutputProperties.

(** ** Further properties: the batch driver *)

Section BatchProperties.
Context {text : GoText}.

Lemma extends_refl out : extends out out.
Proof. by split. Qed.

Lemma extends_trans out1 out2 out3 :
  extends out1 out2 → extends out2 out3 → extends out1 out3.
Proof.
  intros [Hd1 Hs1] [Hd2 Hs2]. split; [set_solver|].
  by transitivity (stdout out2).
Qed.

Lemma extends_stdout out out' line :
  extends out out' → line ∈ stdout out → line ∈ stdout out'.
Proof.
  intros [_ [rest ->]] Hline. apply elem_of_app. by left.
Qed.

(** The state after the loop body of lines 153-157 for one CSV file. *)
Lemma processFiles_cons fl env file rest out :
  processFiles fl env (file :: rest) out =
  processFiles fl env rest
    (if isCSVFile file then
       let run := processCSV fl env out (Join (inputDir fl) (Name file)) in
       match run.2 with
       | Some err =>
           {| files := files run.1;
              stdout := stdout run.1 ++ [errorLine (Name file) err] |}
       | None => run.1
       end
     else out).
Proof.
  simpl. destruct (isCSVFile file); [|done].
  by destruct (processCSV _ _ _ _) as [out' [err|]].
Qed.

Lemma processFiles_extends fl env entries out :
  extends out (processFiles fl env entries out).
Proof.
  revert out. induction entries as [|file rest IH]; intros out;
    [apply extends_refl|].
  rewrite processFiles_cons.
  eapply extends_trans; [|apply IH].
  destruct (isCSVFile file); [|apply extends_refl].
  pose proof (processCSV_extends fl env out (Join (inputDir fl) (Name file)))
    as Hext.
  cbn zeta. destruct (processCSV _ _ _ _) as [out' [err|]]; simpl in *; [|done].
  destruct Hext as [Hdom Hout]. split; [done|]. simpl.
  by apply prefix_app_r.
Qed.

Lemma processFiles_filter fl env entries out :
  processFiles fl env entries out =
  processFiles fl env (filter (λ file, isCSVFile file = true) entries) out.
Proof.
  revert out. induction entries as [|file rest IH]; intros out; [done|].
  rewrite filter_cons. destruct (isCSVFile file) eqn:Hcsv.
  - rewrite decide_True by done. rewrite !processFiles_cons, Hcsv. apply IH.
  - rewrite decide_False by done. rewrite processFiles_cons, Hcsv. apply IH.
Qed.

(** When the output directory is there or can be made and the input is a
    directory that can be listed, [run] returns no error, whatever happens
    to the single files; sub-directories and entries whose name does not
    end in [.csv] play no part. *)
Theorem directory_run_returns_no_error fl host out made entries :
  ensureOutputDir fl host = inr made →
  os_Stat host made (inputDir fl) = inr true →
  os_ReadDir host (inputDir fl) = inr entries →
  run fl host out =
  (processFiles fl (host_env host)
     (filter (λ file, isCSVFile file = true) entries) out,
   made, None).
Proof.
  intros Hdir Hstat Hread. unfold run.
  rewrite Hdir, Hstat, Hread. simpl. by rewrite <- processFiles_filter.
Qed.

(** When [run] returns an error, either nothing was produced by it, or the
    input is a single file with a name ending in [.csv] and the error and
    the output are those of [processCSV] on that file. *)
Theorem failed_run fl host out out' made err :
  run fl host out = (out', made, Some err) →
  out' = out ∨
  (os_Stat host made (inputDir fl) = inr false ∧
   strings.HasSuffix (inputDir fl) ".csv" = true ∧
   processCSV fl (host_env host) out (inputDir fl) = (out', Some err)).
Proof.
  unfold run.
  destruct (ensureOutputDir fl host) as [e|made0];
    [intros [= <- _ _]; by left|].
  destruct (os_Stat host made0 (inputDir fl)) as [e|[|]] eqn:Hstat; simpl.
  - intros [= <- _ _]. by left.
  - destruct (os_ReadDir host (inputDir fl)); [intros [= <- _ _]; by left|done].
  - destruct (strings.HasSuffix (inputDir fl) ".csv") eqn:Hcsv; simpl;
      [|intros [= <- _ _]; by left].
    destruct (processCSV _ _ _ _) as [out1 err1] eqn:Hrun.
    intros [= <- <- ->]. by right.
Qed.

(** [run] loses no file and only adds to what is printed, whether it fails
    or not and whatever happens to the files of the directory. *)
Theorem run_extends_output fl host out out' made err :
  run fl host out = (out', made, err) →
  extends out out'.
Proof.
  unfold run.
  destruct (ensureOutputDir fl host) as [e|made0];
    [intros [= <- _ _]; apply extends_refl|].
  destruct (os_Stat host made0 (inputDir fl)) as [e|[|]]; simpl.
  - intros [= <- _ _]. apply extends_refl.
  - destruct (os_ReadDir host (inputDir fl)); intros [= <- _ _].
    + apply extends_refl.
    + apply processFiles_extends.
  - destruct (strings.HasSuffix (inputDir fl) ".csv"); simpl.
    + pose proof (processCSV_extends fl (host_env host) out (inputDir fl)) as Hext.
      destruct (processCSV _ _ _ _) as [out1 err1].
      by intros [= <- _ _].
    + intros [= <- _ _]. apply extends_refl.
Qed.

(** Every CSV file of the directory is handled, whatever happens to the
    files before and after it: if the file, processed by itself, fails, its
    error line is printed; if it writes a document, then after the batch
    the document's file exists and its [Generated] line is printed. *)
Theorem every_csv_file_is_handled fl env entries out file :
  file ∈ entries →
  isCSVFile file = true →
  let alone := processCSV fl env nothingYet (Join (inputDir fl) (Name file)) in
  let final := processFiles fl env entries out in
  (∀ e, alone.2 = Some e → errorLine (Name file) e ∈ stdout final) ∧
  (∀ p r, writes nothingYet alone.1 p r →
          p ∈ dom (files final) ∧ generatedLine p ∈ stdout final).
Proof.
  intros Hfile Hcsv alone final. subst alone final.
  revert out. induction entries as [|file' rest IH]; intros out;
    [by apply elem_of_nil in Hfile|].
  apply elem_of_cons in Hfile as [<-|Hrest].
  2: { rewrite processFiles_cons. by apply IH. }
  clear IH. rewrite processFiles_cons, Hcsv.
  set (path := Join (inputDir fl) (Name file)).
  destruct (processCSV_independent fl env nothingYet out path) as [Herr Hdoc].
  match goal with
  | |- context [processFiles fl env rest ?o] =>
      pose proof (processFiles_extends fl env rest o) as Hext; set (next := o) in *
  end.
  split.
  - intros e He. eapply extends_stdout; [exact Hext|].
    subst next. cbn zeta. fold path. rewrite <- Herr, He. simpl.
    apply elem_of_app. right. by apply list_elem_of_singleton.
  - intros p r Hw. destruct (Hdoc p r Hw) as (_ & Hnone & Hlookup & Hline).
    assert (next = (processCSV fl env out path).1) as Hnext
      by (subst next; cbn zeta; fold path; by rewrite <- Herr, Hnone).
    split.
    + destruct Hext as [Hdom _]. apply Hdom. rewrite Hnext.
      apply elem_of_dom. by rewrite Hlookup.
    + eapply extends_stdout; [exact Hext|]. by rewrite Hnext.
Qed.

End BatchProperties.

(** ** The further properties at the sample inputs *)

Section MoreSamples.
Existing Instance ascii_text.

Lemma fields_beyond_header_ignored_witness :
  parseRecord (["GET"; "/x"] ++ ["surplus"; "more"])
    (makeHeaderMap ["Method"; "URL"]) =
  parseRecord ["GET"; "/x"] (makeHeaderMap ["Method"; "URL"]).
Proof.
  apply (fields_beyond_header_ignored ["Method"; "URL"] ["GET"; "/x"]
           ["surplus"; "more"]).
  simpl. lia.
Defined.

Lemma collected_endpoints_have_url_witness :
  Forall (λ e, URL e ≠ "") usersEndpoints ∧
  length usersEndpoints < length (records usersTable).
Proof.
  apply (collected_endpoints_have_url usersTable usersEndpoints).
  reflexivity.
Defined.

Lemma no_url_column_no_output_witness :
  processCSV defaultFlags (worldOf commentFirst) nothingYet
    "facts/endpoints/endpoints-users.csv" = (nothingYet, None) ∧
  collect commentFirst = inr [].
Proof.
  destruct (no_url_column_no_output defaultFlags (worldOf commentFirst)
              nothingYet "facts/endpoints/endpoints-users.csv" ["# endpoints"]
              [["Method"; "URL"]; ["GET"; "/ok"]] None) as [Hrun Hcollect];
    [|reflexivity|].
  - intros h Hh. apply list_elem_of_singleton in Hh. rewrite Hh. discriminate.
  - split; [exact Hrun | apply Hcollect; reflexivity].
Defined.

Lemma read_failure_no_output_witness :
  processCSV defaultFlags (worldOf brokenTable) nothingYet
    "facts/endpoints/endpoints-broken.csv" =
  (nothingYet,
   Some (Failure "record on line 3: wrong number of fields")).
Proof.
  apply (read_failure_no_output defaultFlags (worldOf brokenTable) nothingYet
           "facts/endpoints/endpoints-broken.csv" brokenTable);
    [reflexivity | right; discriminate].
Defined.

Lemma rules_after_one_more_endpoint_witness :
  ∃ rewrites catchAll,
    emittedRules defaultFlags usersEndpoints = rewrites ++ [catchAll] ∧
    emittedRules defaultFlags
      (usersEndpoints ++
       [ {| e_Method := "put"; URL := "/orders"; Prefix := "/shop";
            Comment := "" |} ]) =
      rewrites ++ [rule1 defaultFlags "/shop"] ++
      [ {| Matches := Matches catchAll ++
                      [ {| Path := Some {| pm_Type := "PathPrefix";
                                           pm_Value := "/orders" |};
                           Method := "PUT" |} ];
           Filters := Filters catchAll;
           BackendRefs := BackendRefs catchAll |} ].
Proof.
  destruct (rules_after_one_more_endpoint defaultFlags usersEndpoints
              {| e_Method := "put"; URL := "/orders"; Prefix := "/shop";
                 Comment := "" |})
    as (rewrites & catchAll & Hbefore & Hafter); [discriminate|].
  exists rewrites, catchAll. split; [exact Hbefore|]. exact Hafter.
Defined.

Lemma resource_name_has_no_separator_witness :
  ¬ occurs "/"%char (resourceNameOf "facts/endpoints/endpoints-users.csv").
Proof.
  apply (resource_name_has_no_separator "facts/endpoints/endpoints-users.csv").
  reflexivity.
Defined.

Lemma processCSV_outcomes_witness :
  let run := processCSV defaultFlags sampleEnv nothingYet
               "facts/endpoints/endpoints-users.csv" in
  let p := outPathOf defaultFlags "facts/endpoints/endpoints-users.csv" in
  ¬ (¬ createsFile defaultFlags sampleEnv
         "facts/endpoints/endpoints-users.csv" ∧
     run.1 = nothingYet ∧
     (run.2 = None →
      ∃ f, os_Open sampleEnv "facts/endpoints/endpoints-users.csv" = inr f ∧
           collect f = inr [])) ∧
  files run.1 !! p = Some (Some (assemble defaultFlags
                                   "facts/endpoints/endpoints-users.csv"
                                   usersEndpoints)).
Proof.
  intros run p.
  destruct (processCSV_outcomes defaultFlags sampleEnv nothingYet
              "facts/endpoints/endpoints-users.csv" run.1 run.2)
    as [_ (_ & Hexclusive & _)]; [apply surjective_pairing|].
  split; [|reflexivity].
  intros Huntouched. apply Hexclusive. split; [exact Huntouched|].
  split; [exists usersTable, usersEndpoints; by repeat split|].
  split; [reflexivity|]. eexists. split; reflexivity.
Defined.

Lemma processCSV_touches_one_file_witness :
  let run := processCSV defaultFlags sampleEnv nothingYet
               "facts/endpoints/endpoints-users.csv" in
  extends nothingYet run.1 ∧
  ∀ q, q ≠ outPathOf defaultFlags "facts/endpoints/endpoints-users.csv" →
       files run.1 !! q = files nothingYet !! q.
Proof.
  intros run.
  apply (processCSV_touches_one_file defaultFlags sampleEnv nothingYet
           "facts/endpoints/endpoints-users.csv" run.1 run.2).
  apply surjective_pairing.
Defined.


Lemma written_route_is_well_formed_witness :
  let run := processCSV defaultFlags sampleEnv nothingYet
               "facts/endpoints/endpoints-users.csv" in
  let r := assemble defaultFlags "facts/endpoints/endpoints-users.csv"
             usersEndpoints in
  writes nothingYet run.1 "generated/users.yaml" r ∧
  Rules (Spec r) ≠ [].
Proof.
  intros run r.
  assert (writes nothingYet run.1 "generated/users.yaml" r) as Hw
    by (split; [reflexivity | discriminate]).
  split; [exact Hw|].
  apply (written_route_is_well_formed defaultFlags sampleEnv nothingYet
           "facts/endpoints/endpoints-users.csv" run.1 run.2
           "generated/users.yaml" r);
    [apply surjective_pairing | exact Hw].
Defined.

Lemma directory_run_returns_no_error_witness :
  (run defaultFlags sampleHost nothingYet).2 = None ∧
  stdout (run defaultFlags sampleHost nothingYet).1.1 =
  [ errorLine "endpoints-broken.csv"
      (Failure "record on line 3: wrong number of fields");
    generatedLine "generated/users.yaml" ].
Proof.
  rewrite (directory_run_returns_no_error defaultFlags sampleHost nothingYet
             ["generated"] sampleEntries);
    [|reflexivity..].
  split; reflexivity.
Defined.

Lemma failed_run_witness :
  let result := run productionFlags sampleHost nothingYet in
  result.1.1 = nothingYet ∨
  (os_Stat sampleHost result.1.2 (inputDir productionFlags) = inr false ∧
   strings.HasSuffix (inputDir productionFlags) ".csv" = true ∧
   processCSV productionFlags (host_env sampleHost) nothingYet
     (inputDir productionFlags) =
   (result.1.1, Some (Failure "failed to access input: no such file or directory"))).
Proof.
  intros result.
  apply (failed_run productionFlags sampleHost nothingYet result.1.1 result.1.2
           (Failure "failed to access input: no such file or directory")).
  reflexivity.
Defined.

Lemma run_extends_output_witness :
  extends nothingYet (run defaultFlags sampleHost nothingYet).1.1.
Proof.
  apply (run_extends_output defaultFlags sampleHost nothingYet
           (run defaultFlags sampleHost nothingYet).1.1
           (run defaultFlags sampleHost nothingYet).1.2
           (run defaultFlags sampleHost nothingYet).2).
  by destruct (run defaultFlags sampleHost nothingYet) as [[? ?] ?].
Defined.

Lemma every_csv_file_is_handled_witness :
  errorLine "endpoints-broken.csv"
    (Failure "record on line 3: wrong number of fields")
  ∈ stdout (processFiles defaultFlags sampleEnv sampleEntries nothingYet).
Proof.
  apply (every_csv_file_is_handled defaultFlags sampleEnv sampleEntries
           nothingYet {| Name := "endpoints-broken.csv"; IsDir := false |});
    [|reflexivity..].
  apply list_elem_of_further, list_elem_of_here.
Defined.

End MoreSamples.
